(** * GCRA: the generic cell rate algorithm of [gcra.go]

    A shallow embedding of the Go package [gcra] and the properties of its
    raw engine ([GenerateRaw], [ComputeRaw], [roundDiv]) and of its typed
    facade ([Generate], [Compute]).

    - Go's [int64] is a [Z] with the two's complement wrap-around written
      out ([Int64.wrap]).
    - Go's [float64] is IEEE 754 binary64, taken from the Standard Library's
      executable specification [SpecFloat] with [prec = 53], [emax = 1024].
    - [time.Time] is the instant it denotes, in nanoseconds since the Unix
      epoch, an unbounded [Z] (location and monotonic reading play no part
      in the package); [UnixNano] wraps it to an [int64] as Go does.
    - [time.Duration] is an [int64] number of nanoseconds.
    - The result of [int64(f)] for a float that is a NaN, an infinity or out
      of range is the implementation's choice: the class [GoArch]. *)

From Stdlib Require Import ZArith Lia Bool List Sorted SpecFloat.
Import ListNotations.

Local Open Scope Z_scope.

(** ** Go's int64 *)

Module Int64.

Definition min_int : Z := - 2 ^ 63.
Definition max_int : Z := 2 ^ 63 - 1.

(** The value an int64 register holds after an operation whose exact result
    is [z]. *)
Definition wrap (z : Z) : Z := (z + 2 ^ 63) mod 2 ^ 64 - 2 ^ 63.

Definition in_range (z : Z) : Prop := min_int <= z <= max_int.

Definition in_rangeb (z : Z) : bool := (min_int <=? z) && (z <=? max_int).

Definition add (a b : Z) : Z := wrap (a + b).
Definition sub (a b : Z) : Z := wrap (a - b).
Definition mul (a b : Z) : Z := wrap (a * b).

End Int64.

(** ** Go's float64 and the two conversions [roundDiv] uses *)

(** What [int64(f)] delivers when [f] is a NaN, an infinity or a value
    outside the int64 range: the Go specification leaves that to the
    implementation. *)
Class GoArch := { invalid_conv : spec_float -> Z }.

Module Float64.

Definition prec : Z := 53.
Definition emax : Z := 1024.

Definition float64 := spec_float.

(** [float64(a)] for an int64 [a]: round to nearest, ties to even. *)
Definition of_int64 (a : Z) : float64 := binary_normalize prec emax a 0 false.

(** [x / y] on float64. *)
Definition div (x y : float64) : float64 := SFdiv prec emax x y.

(** [math.Round]: the nearest integer, half away from zero;
    [Round(±0) = ±0], [Round(±Inf) = ±Inf], [Round(NaN) = NaN]. A float
    with a non-negative exponent is an integer already. *)
Definition Round (x : float64) : float64 :=
  match x with
  | S754_finite s m e =>
      if 0 <=? e then x
      else
        let n := (Zpos m + 2 ^ (- e - 1)) / 2 ^ (- e) in
        if n =? 0 then S754_zero s
        else of_int64 (if s then - n else n)
  | _ => x
  end.

(** The integer part of a finite float (the fraction is discarded). *)
Definition trunc (x : float64) : option Z :=
  match x with
  | S754_zero _ => Some 0
  | S754_finite s m e =>
      let n := if 0 <=? e then Zpos m * 2 ^ e else Zpos m / 2 ^ (- e) in
      Some (if s then - n else n)
  | S754_infinity _ | S754_nan => None
  end.

(** [int64(x)]: truncation towards zero when the result is representable,
    the implementation's choice otherwise. *)
Definition to_int64 `{GoArch} (x : float64) : Z :=
  match trunc x with
  | Some n => if Int64.in_rangeb n then n else Int64.wrap (invalid_conv x)
  | None => Int64.wrap (invalid_conv x)
  end.

End Float64.

(** Two implementations: amd64's CVTTSD2SQ answers every invalid conversion
    with the "integer indefinite" value, arm64's FCVTZS saturates and sends
    NaN to zero. *)
Definition amd64 : GoArch := {| invalid_conv := fun _ => Int64.min_int |}.

Definition arm64 : GoArch :=
  {| invalid_conv := fun x =>
       match x with
       | S754_nan => 0
       | S754_infinity true | S754_finite true _ _ => Int64.min_int
       | _ => Int64.max_int
       end |}.

(** ** The package *)

(** [time.Time] and [time.Duration]. *)
Definition Time := Z.
Definition Duration := Z.

Definition UnixNano (t : Time) : Z := Int64.wrap t.

(** [time.Unix(0, nsec)]. *)
Definition Unix0 (nsec : Z) : Time := nsec.

(** [time.Time{}]: January 1, year 1, 00:00:00 UTC. *)
Definition zeroTime : Time := - 62135596800 * 10 ^ 9.

Definition Second : Duration := 10 ^ 9.
Definition Millisecond : Duration := 10 ^ 6.

Inductive error := ErrInvalidParameter | ErrCostHigherThanBurst.

Definition Bucket := Time.

(** [Bucket{}]. *)
Definition zeroBucket : Bucket := zeroTime.

Record Options := { Burst : Z; Rate : Z; Period : Duration }.

Record Result :=
  { Limited : bool; Remaining : Z; RetryIn : Duration; ResetIn : Duration }.

(** [Result{}]. *)
Definition zeroResult : Result :=
  {| Limited := false; Remaining := 0; RetryIn := 0; ResetIn := 0 |}.

(** The five values [ComputeRaw] returns, in its order. *)
Record RawResult :=
  { newTAT : Z; limited : bool; remaining : Z; retryIn : Z; resetIn : Z }.

Section Engine.

Context `{GoArch}.

Definition roundDiv (a b : Z) : Z :=
  Float64.to_int64
    (Float64.Round (Float64.div (Float64.of_int64 a) (Float64.of_int64 b))).

Definition GenerateRaw (now count burst rate period : Z) : Z :=
  let emissionInterval := roundDiv period rate in
  let tat := Int64.add now (Int64.mul emissionInterval (Int64.sub burst count)) in
  tat.

Definition ComputeRaw (tat now burst rate period cost : Z) : RawResult :=
  let emissionInterval := roundDiv period rate in
  let increment := Int64.mul emissionInterval cost in
  let burstOffset := Int64.mul emissionInterval burst in
  let tat := if now >? tat then now else tat in
  let newTAT := Int64.add tat increment in
  let allowAt := Int64.sub newTAT burstOffset in
  let diff := Int64.sub now allowAt in
  let remaining := roundDiv diff emissionInterval in
  if remaining <? 0 then
    let remaining :=
      roundDiv (Int64.sub now (Int64.sub tat burstOffset)) emissionInterval in
    let resetIn := Int64.sub tat now in
    let retryIn := Int64.mul diff (-1) in
    Build_RawResult tat true remaining retryIn resetIn
  else if (remaining =? 0) && (increment <=? 0) then
    let resetIn := Int64.sub tat now in
    Build_RawResult tat true 0 0 resetIn
  else
    let resetIn := Int64.sub newTAT now in
    Build_RawResult newTAT false remaining 0 resetIn.

Definition Generate (now : Time) (count : Z) (opts : Options)
  : Bucket * option error :=
  if (count <? 0) || (Burst opts <=? 0) || (Rate opts <=? 0)
     || (Period opts <=? 0)
  then (zeroBucket, Some ErrInvalidParameter)
  else if count >? Burst opts then (zeroBucket, Some ErrCostHigherThanBurst)
  else
    let tat :=
      GenerateRaw (UnixNano now) count (Burst opts) (Rate opts) (Period opts) in
    let bucket := Unix0 tat in
    (bucket, None).

Definition Compute (now : Time) (bucket : Bucket) (cost : Z) (opts : Options)
  : Bucket * Result * option error :=
  if (cost <? 0) || (Burst opts <=? 0) || (Rate opts <=? 0)
     || (Period opts <=? 0)
  then (bucket, zeroResult, Some ErrInvalidParameter)
  else if cost >? Burst opts
  then (bucket, zeroResult, Some ErrCostHigherThanBurst)
  else
    let tat := UnixNano bucket in
    let r :=
      ComputeRaw tat (UnixNano now) (Burst opts) (Rate opts) (Period opts) cost in
    let bucket := Unix0 (newTAT r) in
    let result :=
      {| Limited := limited r; Remaining := remaining r;
         RetryIn := retryIn r; ResetIn := resetIn r |} in
    (bucket, result, None).

(** [MustGenerate] and [MustCompute] panic on an error: [None]. *)
Definition MustGenerate (now : Time) (count : Z) (opts : Options)
  : option Bucket :=
  match Generate now count opts with
  | (bucket, None) => Some bucket
  | (_, Some _) => None
  end.

Definition MustCompute (now : Time) (bucket : Bucket) (cost : Z) (opts : Options)
  : option (Bucket * Result) :=
  match Compute now bucket cost opts with
  | (bucket, result, None) => Some (bucket, result)
  | (_, _, Some _) => None
  end.

End Engine.

(** ** Reference arithmetic on exact integers *)

Definition signed (s : bool) (n : Z) : Z := if s then - n else n.

(** [N / D] rounded to the nearest integer, ties to the even one. *)
Definition nearest_even (N D : Z) : Z :=
  let q := N / D in
  let r := N mod D in
  match 2 * r ?= D with
  | Lt => q
  | Eq => if Z.even q then q else q + 1
  | Gt => q + 1
  end.

(** [N / D] rounded to the nearest integer, ties upwards, for [0 <= N] and
    [0 < D]. *)
Definition nearest_up (N D : Z) : Z := (2 * N + D) / (2 * D).

(** The exact quotient [a / b] rounded to the nearest integer, ties away
    from zero, for [0 < b]. *)
Definition round_half_away (a b : Z) : Z := Z.sgn a * nearest_up (Z.abs a) b.

(** The parameters [Generate] and [Compute] accept. *)
Definition valid (n : Z) (opts : Options) : Prop :=
  0 <= n <= Burst opts /\ 0 < Burst opts /\ 0 < Rate opts /\ 0 < Period opts.

(** The [Result] that [Compute] builds from the raw values. *)
Definition toResult (r : RawResult) : Result :=
  {| Limited := limited r; Remaining := remaining r;
     RetryIn := retryIn r; ResetIn := resetIn r |}.

(** The algorithm of [ComputeRaw] on unbounded integers, with the exact
    rounded quotient in the place of [roundDiv]. *)
Definition ComputeExact (emissionInterval tat now burst cost : Z) : RawResult :=
  let increment := emissionInterval * cost in
  let burstOffset := emissionInterval * burst in
  let tat := Z.max tat now in
  let newTAT := tat + increment in
  let allowAt := newTAT - burstOffset in
  let diff := now - allowAt in
  let remaining := round_half_away diff emissionInterval in
  if remaining <? 0 then
    let remaining := round_half_away (now - (tat - burstOffset)) emissionInterval in
    Build_RawResult tat true remaining (diff * -1) (tat - now)
  else if (remaining =? 0) && (increment <=? 0) then
    Build_RawResult tat true 0 0 (tat - now)
  else
    Build_RawResult newTAT false remaining 0 (newTAT - now).

(** Inputs on which no int64 operation of [ComputeRaw] wraps around and
    every quotient is exact in float64. *)
Definition normal_range (emissionInterval tat now burst cost : Z) : Prop :=
  0 < emissionInterval /\ 0 < burst /\ 0 <= cost <= burst
  /\ emissionInterval * burst <= 2 ^ 52
  /\ Int64.min_int + 2 ^ 52 <= now <= Int64.max_int - 2 ^ 53
  /\ Int64.min_int <= tat <= now + 2 ^ 52.

(** The TATs stored by successive raw calls, each on the TAT the previous
    call returned; a call is a pair of [now] and [cost]. *)
Fixpoint storedTATs `{GoArch} (burst rate period tat : Z)
    (calls : list (Z * Z)) : list Z :=
  match calls with
  | [] => []
  | (now, cost) :: rest =>
      let r := ComputeRaw tat now burst rate period cost in
      newTAT r :: storedTATs burst rate period (newTAT r) rest
  end.

(** Every call of the chain has a positive cost, is allowed and stays
    inside the int64 range. *)
Fixpoint allowedChain `{GoArch} (burst rate period tat : Z)
    (calls : list (Z * Z)) : Prop :=
  match calls with
  | [] => True
  | (now, cost) :: rest =>
      let r := ComputeRaw tat now burst rate period cost in
      0 < cost /\ Int64.in_range now
      /\ Z.max tat now + roundDiv period rate * cost <= Int64.max_int
      /\ limited r = false
      /\ allowedChain burst rate period (newTAT r) rest
  end.

(** The instant the test suite calls [now]: 2022-01-23 10:52:00 UTC. *)
Definition testNow : Time := 1642935120 * 10 ^ 9.

(** The options of [TestCompute]: one unit per second, four at most. *)
Definition testOpts : Options :=
  {| Burst := 4; Rate := 10; Period := 10 * Second |}.

(** The time the bucket still has to give at [now]: the burst offset less
    the distance of the clamped TAT. *)
Definition credit (emissionInterval tat now burst : Z) : Z :=
  now - (Z.max tat now - emissionInterval * burst).

(** A bucket that is not overdrawn by half an emission interval or more. *)
Definition inCredit (emissionInterval tat now burst : Z) : Prop :=
  2 * (tat - now - emissionInterval * burst) < emissionInterval.

(** * Facts about int64 *)

Module Int64Facts.
Import Int64.

Lemma wrap_small z : in_range z -> wrap z = z.
Proof.
  unfold in_range, wrap, min_int, max_int. intros Hz.
  rewrite Z.mod_small; lia.
Qed.

Lemma wrap_in_range z : in_range (wrap z).
Proof.
  unfold in_range, wrap, min_int, max_int.
  pose proof (Z.mod_pos_bound (z + 2 ^ 63) (2 ^ 64) ltac:(lia)). lia.
Qed.

Lemma in_rangeb_spec z : in_rangeb z = true <-> in_range z.
Proof. unfold in_rangeb, in_range. rewrite andb_true_iff, !Z.leb_le. tauto. Qed.

Lemma wrap_add_r a b : wrap (a + wrap b) = wrap (a + b).
Proof.
  unfold wrap. f_equal.
  replace (a + ((b + 2 ^ 63) mod 2 ^ 64 - 2 ^ 63) + 2 ^ 63)
    with (a + (b + 2 ^ 63) mod 2 ^ 64) by lia.
  rewrite Zplus_mod_idemp_r. f_equal. lia.
Qed.

Lemma wrap_mul_r a b : wrap (a * wrap b) = wrap (a * b).
Proof.
  unfold wrap. f_equal.
  rewrite (Z.mod_eq (b + 2 ^ 63) (2 ^ 64)) by lia.
  replace (a * (b + 2 ^ 63 - 2 ^ 64 * ((b + 2 ^ 63) / 2 ^ 64) - 2 ^ 63) + 2 ^ 63)
    with (a * b + 2 ^ 63 + (- a * ((b + 2 ^ 63) / 2 ^ 64)) * 2 ^ 64) by lia.
  apply Z_mod_plus_full.
Qed.

End Int64Facts.

(** * Facts about float64 *)

Module Float64Facts.
Import Float64.

(** ** Binary digits *)

Lemma digits2_pos_size p : digits2_pos p = Pos.size p.
Proof. induction p; simpl; congruence. Qed.

Lemma digits2_bounds p :
  2 ^ (Zpos (digits2_pos p) - 1) <= Zpos p < 2 ^ Zpos (digits2_pos p).
Proof.
  rewrite digits2_pos_size. split.
  - pose proof (Pos.size_le p) as Hle.
    assert (Hz : Zpos (2 ^ Pos.size p) <= Zpos p~0) by exact Hle.
    rewrite Pos2Z.inj_pow in Hz.
    replace (Zpos (Pos.size p)) with (Zpos (Pos.size p) - 1 + 1) in Hz by lia.
    rewrite Z.pow_add_r in Hz by lia. lia.
  - pose proof (Pos.size_gt p) as Hgt.
    assert (Hz : Zpos p < Zpos (2 ^ Pos.size p)) by exact Hgt.
    now rewrite Pos2Z.inj_pow in Hz.
Qed.

Lemma digits2_unique p d :
  2 ^ (d - 1) <= Zpos p < 2 ^ d -> Zpos (digits2_pos p) = d.
Proof.
  intros [Hlo Hhi]. pose proof (digits2_bounds p) as [Hlo' Hhi'].
  assert (0 < d).
  { destruct (Z.ltb_spec 0 d) as [|Hd]; [assumption|exfalso].
    destruct (Z.eq_dec d 0) as [->|Hd0]; [simpl in Hhi; lia|].
    rewrite Z.pow_neg_r in Hhi by lia. lia. }
  destruct (Z.lt_trichotomy (Zpos (digits2_pos p)) d) as [Hlt|[Heq|Hgt]];
    [exfalso | assumption | exfalso].
  - assert (2 ^ Zpos (digits2_pos p) <= 2 ^ (d - 1))
      by (apply Z.pow_le_mono_r; lia). lia.
  - assert (2 ^ d <= 2 ^ (Zpos (digits2_pos p) - 1))
      by (apply Z.pow_le_mono_r; lia). lia.
Qed.

Lemma digits2_53 m : 2 ^ 52 <= Zpos m < 2 ^ 53 -> Zdigits2 (Zpos m) = 53.
Proof. intros Hm. simpl. apply digits2_unique. simpl (53 - 1). exact Hm. Qed.

(** ** Conversion of an integer *)

(** Rounding a 53-bit mantissa that is exact changes nothing. *)
Lemma binary_round_aux_canonical s m e :
  2 ^ 52 <= Zpos m < 2 ^ 53 -> -1074 <= e <= 971 ->
  binary_round_aux prec emax s (Zpos m) e loc_Exact = S754_finite s m e.
Proof.
  intros Hm He.
  assert (Hsh : forall l, shr_fexp prec emax (Zpos m) e l
                 = (shr_record_of_loc (Zpos m) l, e)).
  { intros l. unfold shr_fexp. rewrite (digits2_53 m Hm).
    unfold fexp, emin, prec, emax.
    replace (Z.sub (Z.max (Z.sub (Z.add 53 e) 53) (Z.sub (Z.sub 3 1024) 53)) e)
      with 0 by lia.
    reflexivity. }
  unfold binary_round_aux. rewrite Hsh. simpl shr_m. simpl loc_of_shr_record.
  simpl round_nearest_even. rewrite Hsh. simpl shr_m.
  unfold prec, emax. replace (e <=? 1024 - 53) with true; [reflexivity|].
  symmetry. apply Z.leb_le. lia.
Qed.

Lemma iter_xO m d : Zpos (Pos.iter xO m d) = Zpos m * 2 ^ Zpos d.
Proof.
  revert m. induction d using Pos.peano_ind; intros m.
  - simpl. lia.
  - rewrite Pos.iter_succ, Pos2Z.inj_xO, IHd, Pos2Z.inj_succ, Z.pow_succ_r by lia.
    lia.
Qed.

(** [float64(a)] is exact for [0 < a < 2^53]: the mantissa is [a] shifted
    up to 53 bits. *)
Lemma binary_round_exact (s : bool) (p : positive) :
  Zpos p < 2 ^ 53 ->
  let d := Zpos (digits2_pos p) in
  binary_round prec emax s p 0
  = S754_finite s (Z.to_pos (Zpos p * 2 ^ (53 - d))) (d - 53).
Proof.
  intros Hp d. pose proof (digits2_bounds p) as Hd. fold d in Hd.
  assert (Hd53 : 1 <= d <= 53).
  { split; [unfold d; lia|].
    destruct (Z.leb_spec d 53); [assumption|exfalso].
    assert (2 ^ 53 <= 2 ^ (d - 1)) by (apply Z.pow_le_mono_r; lia). lia. }
  unfold binary_round, shl_align. fold d.
  unfold fexp, emin, prec, emax.
  replace (Z.sub (Z.max (Z.sub (Z.add d 0) 53) (Z.sub (Z.sub 3 1024) 53)) 0)
    with (d - 53) by lia.
  replace (Z.max (Z.sub (Z.add d 0) 53) (Z.sub (Z.sub 3 1024) 53))
    with (d - 53) by lia.
  destruct (d - 53) as [|q|q] eqn:Hq; [ | lia | ].
  - replace (53 - d) with 0 by lia. rewrite Z.mul_1_r. simpl Z.to_pos.
    apply (binary_round_aux_canonical s p 0); [|lia].
    replace d with 53 in Hd by lia. exact Hd.
  - assert (Hsh : Zpos (Pos.iter xO p q) = Zpos p * 2 ^ (53 - d)).
    { rewrite iter_xO. f_equal. f_equal. lia. }
    rewrite <- Hsh. simpl Z.to_pos.
    apply (binary_round_aux_canonical s (Pos.iter xO p q) (Zneg q)); [|lia].
    rewrite Hsh.
    replace (2 ^ 52) with (2 ^ (d - 1) * 2 ^ (53 - d))
      by (rewrite <- Z.pow_add_r by lia; f_equal; lia).
    replace (2 ^ 53) with (2 ^ d * 2 ^ (53 - d))
      by (rewrite <- Z.pow_add_r by lia; f_equal; lia).
    assert (0 < 2 ^ (53 - d)) by (apply Z.pow_pos_nonneg; lia).
    split; [apply Z.mul_le_mono_nonneg_r | apply Z.mul_lt_mono_pos_r]; lia.
Qed.

(** ** Shifting and rounding to nearest even *)

Lemma shr_1_nonneg m r s :
  0 <= m ->
  shr_1 (Build_shr_record m r s) = Build_shr_record (m / 2) (Z.odd m) (r || s).
Proof.
  intros Hm. destruct m as [|p|p]; [reflexivity | | lia].
  destruct p as [p|p|]; simpl shr_1; f_equal.
  - rewrite Pos2Z.inj_xI. apply Z.div_unique with (r := 1); lia.
  - rewrite Pos2Z.inj_xO. apply Z.div_unique with (r := 0); lia.
Qed.

Lemma loc_of_shr_record_of_loc m l :
  loc_of_shr_record (shr_record_of_loc m l) = l.
Proof. destruct l as [|[]]; reflexivity. Qed.

Lemma shr_m_record_of_loc m l : shr_m (shr_record_of_loc m l) = m.
Proof. destruct l as [|[]]; reflexivity. Qed.

(** The location of [r / D] in the unit interval. *)
Lemma new_location_spec D r :
  0 <= r < D ->
  new_location D r
  = if r =? 0 then loc_Exact else loc_Inexact (2 * r ?= D).
Proof.
  intros Hr. unfold new_location, new_location_even, new_location_odd.
  destruct (Z.even D) eqn:Hev; [reflexivity|].
  destruct (r =? 0); [reflexivity|]. f_equal.
  assert (Hodd : Z.odd D = true) by (rewrite <- Z.negb_even, Hev; reflexivity).
  apply Z.odd_spec in Hodd. destruct Hodd as [k Hk].
  destruct (Z.compare_spec (2 * r + 1) D); destruct (Z.compare_spec (2 * r) D);
    try reflexivity; lia.
Qed.

(** Rounding [N / D] to the nearest even integer from the quotient, the
    remainder and its location, as [binary_round_aux] does when no shift is
    needed. *)
Lemma round_nearest_even_loc N D :
  0 < D -> 0 <= N ->
  round_nearest_even (N / D)
    (if N mod D =? 0 then loc_Exact else loc_Inexact (2 * (N mod D) ?= D))
  = nearest_even N D.
Proof.
  intros HD HN. unfold nearest_even.
  pose proof (Z.mod_pos_bound N D HD) as Hr.
  destruct (Z.eqb_spec (N mod D) 0) as [H0|H0].
  - rewrite H0. destruct D; [lia | reflexivity | lia].
  - destruct (2 * (N mod D) ?= D); reflexivity.
Qed.

(** The same after one shift to the right: the quotient of [2 N] by [D] is
    halved, its last bit and the remainder give the location. *)
Lemma round_nearest_even_shift N D :
  0 < D -> 0 <= N ->
  let q := (2 * N) / D in
  let r := (2 * N) mod D in
  round_nearest_even (q / 2)
    (loc_of_shr_record
       (Build_shr_record (q / 2) (Z.odd q)
          (shr_r (shr_record_of_loc q
                    (if r =? 0 then loc_Exact else loc_Inexact (2 * r ?= D)))
           || shr_s (shr_record_of_loc q
                       (if r =? 0 then loc_Exact else loc_Inexact (2 * r ?= D))))))
  = nearest_even N D.
Proof.
  intros HD HN q r. unfold nearest_even.
  pose proof (Z.mod_pos_bound N D HD) as Hr'.
  pose proof (Z.div_mod N D ltac:(lia)) as HN'.
  set (q' := N / D) in *. set (r' := N mod D) in *.
  assert (Hq'0 : 0 <= q') by (apply Z.div_pos; lia).
  destruct (Z.compare_spec (2 * r') D) as [Heq|Hlt|Hgt].
  - (* tie *)
    assert (Hq : q = 2 * q' + 1).
    { unfold q. symmetry. apply Z.div_unique with (r := 0); nia. }
    assert (Hr : r = 0).
    { unfold r. symmetry. apply Z.mod_unique with (q := 2 * q' + 1); nia. }
    rewrite Hq, Hr. simpl (0 =? 0). simpl shr_record_of_loc. simpl orb.
    replace ((2 * q' + 1) / 2) with q'
      by (apply Z.div_unique with (r := 1); lia).
    replace (Z.odd (2 * q' + 1)) with true
      by (symmetry; rewrite Z.add_comm, Z.odd_add_mul_2; reflexivity).
    reflexivity.
  - assert (Hq : q = 2 * q').
    { unfold q. symmetry. apply Z.div_unique with (r := 2 * r'); nia. }
    assert (Hr : r = 2 * r').
    { unfold r. symmetry. apply Z.mod_unique with (q := 2 * q'); nia. }
    rewrite Hq.
    replace (2 * q' / 2) with q'
      by (apply Z.div_unique with (r := 0); lia).
    replace (Z.odd (2 * q')) with false
      by (symmetry; rewrite <- (Z.add_0_l (2 * q')), Z.odd_add_mul_2; reflexivity).
    destruct (Z.eqb_spec r 0) as [Hr0|Hr0]; [reflexivity|].
    destruct (2 * r ?= D); reflexivity.
  - assert (Hq : q = 2 * q' + 1).
    { unfold q. symmetry. apply Z.div_unique with (r := 2 * r' - D); nia. }
    assert (Hr : r = 2 * r' - D).
    { unfold r. symmetry. apply Z.mod_unique with (q := 2 * q' + 1); nia. }
    rewrite Hq.
    replace ((2 * q' + 1) / 2) with q'
      by (apply Z.div_unique with (r := 1); lia).
    replace (Z.odd (2 * q' + 1)) with true
      by (symmetry; rewrite Z.add_comm, Z.odd_add_mul_2; reflexivity).
    destruct (Z.eqb_spec r 0) as [Hr0|Hr0]; [lia|].
    destruct (2 * r ?= D); reflexivity.
Qed.

Lemma Zdigits2_53 q : 2 ^ 52 <= q < 2 ^ 53 -> Zdigits2 q = 53.
Proof. intros Hq. destruct q as [|p|p]; try lia. now apply digits2_53. Qed.

Lemma Zdigits2_54 q : 2 ^ 53 <= q < 2 ^ 54 -> Zdigits2 q = 54.
Proof.
  intros Hq. destruct q as [|p|p]; try lia. simpl.
  apply digits2_unique. simpl (54 - 1). exact Hq.
Qed.

Lemma shr_fexp_53 q e l :
  2 ^ 52 <= q < 2 ^ 53 -> -1074 <= e ->
  shr_fexp prec emax q e l = (shr_record_of_loc q l, e).
Proof.
  intros Hq He. unfold shr_fexp. rewrite (Zdigits2_53 q Hq).
  unfold fexp, emin, prec, emax.
  replace (Z.sub (Z.max (Z.sub (Z.add 53 e) 53) (Z.sub (Z.sub 3 1024) 53)) e)
    with 0 by lia.
  reflexivity.
Qed.

Lemma shr_fexp_54 q e l :
  2 ^ 53 <= q < 2 ^ 54 -> -1075 <= e ->
  shr_fexp prec emax q e l = (shr_1 (shr_record_of_loc q l), e + 1).
Proof.
  intros Hq He. unfold shr_fexp. rewrite (Zdigits2_54 q Hq).
  unfold fexp, emin, prec, emax.
  replace (Z.sub (Z.max (Z.sub (Z.add 54 e) 53) (Z.sub (Z.sub 3 1024) 53)) e)
    with 1 by lia.
  reflexivity.
Qed.

Lemma shr_1_record x :
  0 <= shr_m x ->
  shr_1 x = Build_shr_record (shr_m x / 2) (Z.odd (shr_m x)) (shr_r x || shr_s x).
Proof. destruct x as [m r s]. simpl. apply shr_1_nonneg. Qed.

Lemma nearest_even_bounds N D lo hi :
  0 < D -> lo * D <= N <= hi * D -> lo <= nearest_even N D <= hi.
Proof.
  intros HD [Hlo Hhi]. unfold nearest_even.
  pose proof (Z.mod_pos_bound N D HD) as Hr.
  pose proof (Z.div_mod N D ltac:(lia)) as HN.
  set (q := N / D) in *. set (r := N mod D) in *.
  assert (lo <= q) by nia.
  assert (q <= hi) by nia.
  assert (q = hi -> r = 0) by nia.
  destruct (Z.compare_spec (2 * r) D); [destruct (Z.even q)| |]; lia.
Qed.

(** The tail of [binary_round_aux] once the mantissa has 53 bits. *)
Lemma binary_round_aux_tail (s : bool) M e :
  2 ^ 52 <= M < 2 ^ 53 -> -1074 <= e <= 971 ->
  (let '(mrs'', e'') := shr_fexp prec emax M e loc_Exact in
   match shr_m mrs'' with
   | Z0 => S754_zero s
   | Zpos m =>
       if Z.leb e'' (Z.sub emax prec) then S754_finite s m e''
       else S754_infinity s
   | Zneg _ => S754_nan
   end) = S754_finite s (Z.to_pos M) e.
Proof.
  intros HM He. rewrite shr_fexp_53 by lia. simpl shr_m.
  destruct M as [|m|m]; try lia. simpl Z.to_pos.
  unfold prec, emax. replace (e <=? 1024 - 53) with true; [reflexivity|].
  symmetry. apply Z.leb_le. lia.
Qed.

(** ** Division *)

Lemma SFdiv_core_canonical m1 e1 m2 e2 :
  2 ^ 52 <= Zpos m1 < 2 ^ 53 -> 2 ^ 52 <= Zpos m2 < 2 ^ 53 ->
  -900 <= e1 - e2 <= 900 ->
  SFdiv_core_binary prec emax (Zpos m1) e1 (Zpos m2) e2
  = ((Zpos m1 * 2 ^ 53) / Zpos m2, e1 - e2 - 53,
     new_location (Zpos m2) ((Zpos m1 * 2 ^ 53) mod Zpos m2)).
Proof.
  intros H1 H2 He. unfold SFdiv_core_binary.
  rewrite (digits2_53 m1 H1), (digits2_53 m2 H2).
  assert (He' : Z.min (fexp prec emax (53 + e1 - (53 + e2))) (e1 - e2)
                = e1 - e2 - 53).
  { unfold fexp, emin, prec, emax. lia. }
  rewrite He'.
  replace (e1 - e2 - (e1 - e2 - 53)) with 53 by lia.
  cbv iota. rewrite Z.shiftl_mul_pow2 by lia.
  unfold Z.div, Z.modulo.
  destruct (Z.div_eucl (Zpos m1 * 2 ^ 53) (Zpos m2)) as [q r]. reflexivity.
Qed.

(** IEEE 754 division of two normal numbers whose exponents are close: the
    quotient of the mantissas, scaled to 53 bits, is rounded to the nearest
    even integer. *)
Lemma div_canonical s1 m1 e1 s2 m2 e2 :
  2 ^ 52 <= Zpos m1 < 2 ^ 53 -> 2 ^ 52 <= Zpos m2 < 2 ^ 53 ->
  -900 <= e1 - e2 <= 900 ->
  div (S754_finite s1 m1 e1) (S754_finite s2 m2 e2)
  = if Zpos m2 <=? Zpos m1
    then S754_finite (xorb s1 s2)
           (Z.to_pos (nearest_even (Zpos m1 * 2 ^ 52) (Zpos m2))) (e1 - e2 - 52)
    else S754_finite (xorb s1 s2)
           (Z.to_pos (nearest_even (Zpos m1 * 2 ^ 53) (Zpos m2))) (e1 - e2 - 53).
Proof.
  intros H1 H2 He.
  unfold div, SFdiv. rewrite SFdiv_core_canonical by assumption.
  set (N2 := Zpos m1 * 2 ^ 53). set (D := Zpos m2).
  assert (HD : 0 < D) by (unfold D; lia).
  assert (HN2 : 0 <= N2) by (unfold N2; lia).
  pose proof (Z.mod_pos_bound N2 D HD) as Hr.
  pose proof (Z.div_mod N2 D ltac:(lia)) as HN.
  rewrite new_location_spec by assumption.
  unfold binary_round_aux.
  destruct (Z.leb_spec D (Zpos m1)) as [Hle|Hlt].
  - (* the quotient has 54 bits: one shift *)
    set (N := Zpos m1 * 2 ^ 52).
    assert (HNN : N2 = 2 * N) by (unfold N2, N; lia).
    assert (Hq : 2 ^ 53 <= N2 / D < 2 ^ 54).
    { fold D in H2. unfold N2 in *. nia. }
    rewrite shr_fexp_54 by lia.
    rewrite shr_1_record by (rewrite shr_m_record_of_loc; lia).
    rewrite shr_m_record_of_loc. cbv beta iota. simpl shr_m.
    rewrite HNN.
    rewrite (round_nearest_even_shift N D HD ltac:(unfold N; lia)).
    replace (e1 - e2 - 53 + 1) with (e1 - e2 - 52) by lia.
    apply binary_round_aux_tail; [|lia].
    assert (2 ^ 52 <= nearest_even N D <= 2 ^ 53 - 1); [|lia].
    apply nearest_even_bounds; [assumption|].
    fold D in H2. unfold N. nia.
  - assert (Hq : 2 ^ 52 <= N2 / D < 2 ^ 53).
    { fold D in H2. unfold N2 in *. nia. }
    rewrite shr_fexp_53 by lia.
    rewrite shr_m_record_of_loc, loc_of_shr_record_of_loc.
    rewrite (round_nearest_even_loc N2 D HD HN2).
    apply binary_round_aux_tail; [|lia].
    assert (2 ^ 52 <= nearest_even N2 D <= 2 ^ 53 - 1); [|lia].
    apply nearest_even_bounds; [assumption|].
    fold D in H2. unfold N2. nia.
Qed.

(** ** Division of converted integers *)

Lemma nearest_even_scale k N D :
  0 < k -> 0 < D -> nearest_even (k * N) (k * D) = nearest_even N D.
Proof.
  intros Hk HD. unfold nearest_even.
  rewrite Z.div_mul_cancel_l by lia.
  rewrite Z.mul_mod_distr_l by lia.
  destruct (Z.compare_spec (2 * (k * (N mod D))) (k * D));
    destruct (Z.compare_spec (2 * (N mod D)) D); try reflexivity; nia.
Qed.

(** [float64(±n)] is exact for [0 < n < 2^53]. *)
Lemma of_int64_exact s n :
  0 < n < 2 ^ 53 ->
  exists m e,
    of_int64 (signed s n) = S754_finite s m e
    /\ 2 ^ 52 <= Zpos m < 2 ^ 53 /\ -52 <= e <= 0
    /\ Zpos m = n * 2 ^ (- e).
Proof.
  intros Hn. destruct n as [|p|p]; try lia.
  pose proof (binary_round_exact s p ltac:(lia)) as Hof. cbv zeta in Hof.
  pose proof (digits2_bounds p) as Hd.
  set (d := Zpos (digits2_pos p)) in *.
  assert (Hd53 : 1 <= d <= 53).
  { split; [unfold d; lia|].
    destruct (Z.leb_spec d 53); [assumption|exfalso].
    assert (2 ^ 53 <= 2 ^ (d - 1)) by (apply Z.pow_le_mono_r; lia). lia. }
  assert (Hpow : 0 < 2 ^ (53 - d)) by (apply Z.pow_pos_nonneg; lia).
  assert (HM : 2 ^ 52 <= Zpos p * 2 ^ (53 - d) < 2 ^ 53).
  { replace (2 ^ 52) with (2 ^ (d - 1) * 2 ^ (53 - d))
      by (rewrite <- Z.pow_add_r by lia; f_equal; lia).
    replace (2 ^ 53) with (2 ^ d * 2 ^ (53 - d))
      by (rewrite <- Z.pow_add_r by lia; f_equal; lia).
    split; [apply Z.mul_le_mono_nonneg_r | apply Z.mul_lt_mono_pos_r]; lia. }
  exists (Z.to_pos (Zpos p * 2 ^ (53 - d))), (d - 53).
  rewrite Z2Pos.id by lia.
  replace (- (d - 53)) with (53 - d) by lia.
  repeat split; try lia.
  unfold of_int64, binary_normalize. destruct s; simpl signed; exact Hof.
Qed.

(** The quotient of two integers below [2^53], as float64 computes it:
    scaled by the power of two that gives a 53-bit mantissa, then rounded
    to the nearest even integer. *)
Lemma div_of_int64 s a b :
  0 < a < 2 ^ 53 -> 0 < b < 2 ^ 53 ->
  exists t,
    0 <= t <= 105
    /\ 2 ^ 52 * b <= a * 2 ^ t < 2 ^ 53 * b
    /\ 2 ^ 52 <= nearest_even (a * 2 ^ t) b < 2 ^ 53
    /\ div (of_int64 (signed s a)) (of_int64 b)
       = S754_finite s (Z.to_pos (nearest_even (a * 2 ^ t) b)) (- t).
Proof.
  intros Ha Hb.
  destruct (of_int64_exact s a Ha) as (ma & ea & Hfa & Hma & Hea & Hma').
  destruct (of_int64_exact false b Hb) as (mb & eb & Hfb & Hmb & Heb & Hmb').
  simpl signed in Hfb. rewrite Hfa, Hfb.
  rewrite div_canonical by lia. rewrite xorb_false_r.
  set (sa := - ea) in *. set (sb := - eb) in *.
  assert (Hpa : 0 < 2 ^ sa) by (apply Z.pow_pos_nonneg; unfold sa; lia).
  assert (Hpb : 0 < 2 ^ sb) by (apply Z.pow_pos_nonneg; unfold sb; lia).
  destruct (Z.leb_spec (Zpos mb) (Zpos ma)) as [Hle|Hlt].
  - exists (52 + sa - sb).
    assert (Hsc : Zpos ma * 2 ^ 52 = 2 ^ sb * (a * 2 ^ (52 + sa - sb))).
    { rewrite Hma'. replace (52 + sa - sb) with (52 - sb + sa) by lia.
      rewrite (Z.pow_add_r 2 (52 - sb) sa) by (unfold sa, sb; lia).
      replace (2 ^ 52) with (2 ^ sb * 2 ^ (52 - sb))
        by (rewrite <- Z.pow_add_r by (unfold sb; lia); f_equal; lia).
      ring. }
    assert (Hne : nearest_even (Zpos ma * 2 ^ 52) (Zpos mb)
                  = nearest_even (a * 2 ^ (52 + sa - sb)) b).
    { rewrite Hsc, Hmb', (Z.mul_comm b). apply nearest_even_scale; lia. }
    split; [unfold sa, sb; lia|]. split; [|split].
    + rewrite Hma', Hmb' in *. nia.
    + rewrite <- Hne.
      assert (2 ^ 52 <= nearest_even (Zpos ma * 2 ^ 52) (Zpos mb) <= 2 ^ 53 - 1);
        [|lia].
      apply nearest_even_bounds; nia.
    + rewrite Hne. f_equal. unfold sa, sb. lia.
  - exists (53 + sa - sb).
    assert (Hsc : Zpos ma * 2 ^ 53 = 2 ^ sb * (a * 2 ^ (53 + sa - sb))).
    { rewrite Hma'. replace (53 + sa - sb) with (53 - sb + sa) by lia.
      rewrite (Z.pow_add_r 2 (53 - sb) sa) by (unfold sa, sb; lia).
      replace (2 ^ 53) with (2 ^ sb * 2 ^ (53 - sb))
        by (rewrite <- Z.pow_add_r by (unfold sb; lia); f_equal; lia).
      ring. }
    assert (Hne : nearest_even (Zpos ma * 2 ^ 53) (Zpos mb)
                  = nearest_even (a * 2 ^ (53 + sa - sb)) b).
    { rewrite Hsc, Hmb', (Z.mul_comm b). apply nearest_even_scale; lia. }
    split; [unfold sa, sb; lia|]. split; [|split].
    + rewrite Hma', Hmb' in *. nia.
    + rewrite <- Hne.
      assert (2 ^ 52 <= nearest_even (Zpos ma * 2 ^ 53) (Zpos mb) <= 2 ^ 53 - 1);
        [|lia].
      apply nearest_even_bounds; nia.
    + rewrite Hne. f_equal. unfold sa, sb. lia.
Qed.

(** ** [math.Round] and the conversion back *)

Section Conv.
Context `{GoArch}.

Lemma to_int64_small (x : float64) n :
  trunc x = Some n -> - 2 ^ 53 <= n <= 2 ^ 53 -> to_int64 x = n.
Proof.
  intros Hx Hn. unfold to_int64. rewrite Hx.
  replace (Int64.in_rangeb n) with true; [reflexivity|].
  symmetry. apply Int64Facts.in_rangeb_spec.
  unfold Int64.in_range, Int64.min_int, Int64.max_int. lia.
Qed.

Lemma to_int64_of_int64 s n :
  0 < n < 2 ^ 53 -> to_int64 (of_int64 (signed s n)) = signed s n.
Proof.
  intros Hn. destruct (of_int64_exact s n Hn) as (m & e & Hf & Hm & He & Hm').
  rewrite Hf. apply to_int64_small; [|destruct s; simpl; lia].
  unfold trunc. f_equal.
  assert (Hp : 0 < 2 ^ (- e)) by (apply Z.pow_pos_nonneg; lia).
  destruct (Z.leb_spec 0 e) as [He0|He0].
  - assert (e = 0) by lia. subst e. simpl in Hm'. unfold signed.
    replace (Zpos m * 2 ^ 0) with n by (simpl; lia). reflexivity.
  - rewrite Hm', Z.div_mul by lia. reflexivity.
Qed.

(** [int64(math.Round(x))] for a normal [x = ± M * 2^-t]. *)
Lemma to_int64_Round s M t :
  2 ^ 52 <= M < 2 ^ 53 -> 0 <= t ->
  to_int64 (Round (S754_finite s (Z.to_pos M) (- t)))
  = signed s (nearest_up M (2 ^ t)).
Proof.
  intros HM Ht. unfold nearest_up.
  destruct (Z.eq_dec t 0) as [->|Ht0].
  - change (- 0) with 0. change (2 ^ 0) with 1. unfold Round.
    change (0 <=? 0) with true. cbv iota.
    replace ((2 * M + 1) / (2 * 1)) with M
      by (apply Z.div_unique with (r := 1); lia).
    apply to_int64_small; [|destruct s; simpl; lia].
    unfold trunc. change (0 <=? 0) with true. cbv iota.
    rewrite Z2Pos.id by lia. change (2 ^ 0) with 1.
    rewrite Z.mul_1_r. reflexivity.
  - unfold Round. replace (0 <=? - t) with false by (symmetry; apply Z.leb_gt; lia).
    rewrite Z.opp_involutive, Z2Pos.id by lia.
    set (h := 2 ^ (t - 1)).
    assert (Hh : 0 < h) by (apply Z.pow_pos_nonneg; lia).
    assert (Hp : 2 ^ t = 2 * h).
    { unfold h. rewrite <- Z.pow_succ_r by lia. f_equal. lia. }
    rewrite Hp.
    replace (2 * M + 2 * h) with (2 * (M + h)) by lia.
    rewrite Z.div_mul_cancel_l by lia.
    set (n := (M + h) / (2 * h)).
    assert (Hn : 0 <= n <= 2 ^ 52).
    { unfold n. split; [apply Z.div_pos; lia|].
      apply Z.lt_succ_r. apply Z.div_lt_upper_bound; nia. }
    cbv zeta. destruct (Z.eqb_spec n 0) as [Hn0|Hn0].
    + rewrite Hn0. apply to_int64_small; destruct s; simpl; [reflexivity..| |]; lia.
    + fold (signed s n). apply to_int64_of_int64. lia.
Qed.

Lemma roundDiv_float s a b :
  0 < a < 2 ^ 53 -> 0 < b < 2 ^ 53 ->
  exists t,
    0 <= t <= 105
    /\ 2 ^ 52 * b <= a * 2 ^ t < 2 ^ 53 * b
    /\ roundDiv (signed s a) b
       = signed s (nearest_up (nearest_even (a * 2 ^ t) b) (2 ^ t)).
Proof.
  intros Ha Hb. destruct (div_of_int64 s a b Ha Hb) as (t & Ht & Hn & HM & Hd).
  exists t. split; [assumption|]. split; [assumption|].
  unfold roundDiv. rewrite Hd. apply to_int64_Round; lia.
Qed.
End Conv.

(** ** Two roundings in a row *)

Lemma nearest_even_cases N D :
  0 < D ->
  let q := N / D in let r := N mod D in
  nearest_even N D = q \/ (nearest_even N D = q + 1 /\ D <= 2 * r).
Proof.
  intros HD q r. unfold nearest_even. fold q r.
  destruct (Z.compare_spec (2 * r) D); [destruct (Z.even q)| |];
    (now left) || (right; split; [reflexivity|lia]).
Qed.

Lemma nearest_up_unique N D k :
  0 < D -> 2 * D * k <= 2 * N + D < 2 * D * k + 2 * D -> nearest_up N D = k.
Proof.
  intros HD Hk. unfold nearest_up. symmetry.
  apply Z.div_unique with (r := 2 * N + D - 2 * D * k); lia.
Qed.

Lemma nearest_up_bounds N D :
  0 < D ->
  2 * D * nearest_up N D <= 2 * N + D < 2 * D * nearest_up N D + 2 * D.
Proof.
  intros HD. unfold nearest_up.
  pose proof (Z.div_mod (2 * N + D) (2 * D) ltac:(lia)).
  pose proof (Z.mod_pos_bound (2 * N + D) (2 * D) ltac:(lia)). lia.
Qed.

(** Rounding the 53-bit quotient again to an integer gives the rounded exact
    quotient as long as the dividend is at most [2^52]: the quotient is then
    too far from a half-integer for the first rounding to reach it. *)
Lemma double_rounding a b t :
  0 < a <= 2 ^ 52 -> 0 < b -> 0 <= t -> 2 ^ 52 * b <= a * 2 ^ t ->
  nearest_up (nearest_even (a * 2 ^ t) b) (2 ^ t) = nearest_up a b.
Proof.
  intros Ha Hb Ht Hnorm.
  pose proof (nearest_up_bounds a b Hb) as Hk. set (k := nearest_up a b) in *.
  pose proof (nearest_even_cases (a * 2 ^ t) b Hb) as HM. cbv zeta in HM.
  pose proof (Z.div_mod (a * 2 ^ t) b ltac:(lia)) as Hqr.
  pose proof (Z.mod_pos_bound (a * 2 ^ t) b Hb) as Hr.
  set (M := nearest_even (a * 2 ^ t) b) in *.
  set (q := (a * 2 ^ t) / b) in *. set (r := (a * 2 ^ t) mod b) in *.
  destruct (Z.eq_dec t 0) as [->|Ht0].
  - change (2 ^ 0) with 1 in *.
    assert (b = 1) by nia. subst b.
    assert (r = 0) by lia. assert (q = a) by lia.
    apply nearest_up_unique; lia.
  - set (h := 2 ^ (t - 1)).
    assert (Hh : 0 < h) by (apply Z.pow_pos_nonneg; lia).
    assert (Hp : 2 ^ t = 2 * h).
    { unfold h. rewrite <- Z.pow_succ_r by lia. f_equal. lia. }
    rewrite Hp in *.
    assert (Hlo : 2 * h * k <= q + h).
    { assert (b * (2 * h * k) < b * (q + 1 + h)) by nia.
      assert (2 * h * k < q + 1 + h) by (apply (Z.mul_lt_mono_pos_l b); lia).
      lia. }
    assert (Hup : b * q + r + h <= (2 * k + 1) * b * h) by nia.
    assert (Hq : q + 1 <= (2 * k + 1) * h).
    { assert (b * q < b * ((2 * k + 1) * h)) by nia.
      assert (q < (2 * k + 1) * h) by (apply (Z.mul_lt_mono_pos_l b); lia).
      lia. }
    apply nearest_up_unique; [lia|].
    destruct HM as [HM|[HM Hhalf]]; rewrite HM; [lia|].
    assert (q + 1 <> (2 * k + 1) * h); [|lia].
    intros Heq.
    assert (Hrh : r + h <= b) by nia.
    assert (Hbp : b <= 2 * h).
    { assert (2 ^ 52 * b <= 2 ^ 52 * (2 * h)) by nia. lia. }
    assert (b = 2 * h) by lia. subst b.
    assert (r = h) by lia.
    assert (a = 2 ^ 52) by nia.
    subst a. nia.
Qed.

(** ** [roundDiv] on exact operands *)

Section Exact.
Context `{GoArch}.

Lemma roundDiv_0_l b : 0 < b < 2 ^ 53 -> roundDiv 0 b = 0.
Proof.
  intros Hb. destruct (of_int64_exact false b Hb) as (m & e & Hf & _).
  simpl signed in Hf. unfold roundDiv. rewrite Hf. reflexivity.
Qed.

Lemma roundDiv_signed s a b :
  0 < a <= 2 ^ 52 -> 0 < b < 2 ^ 53 ->
  roundDiv (signed s a) b = signed s (nearest_up a b).
Proof.
  intros Ha Hb.
  destruct (roundDiv_float s a b ltac:(lia) Hb) as (t & Ht & Hn & Hr).
  rewrite Hr. f_equal. apply double_rounding; lia.
Qed.

(** On dividends up to [2^52] in magnitude and positive divisors below
    [2^53], [roundDiv] is the exact rounded quotient. *)
Lemma roundDiv_exact a b :
  - 2 ^ 52 <= a <= 2 ^ 52 -> 0 < b < 2 ^ 53 ->
  roundDiv a b = round_half_away a b.
Proof.
  intros Ha Hb. unfold round_half_away.
  destruct (Z.lt_trichotomy a 0) as [Hneg|[->|Hpos]].
  - replace a with (signed true (- a)) at 1 by (simpl; lia).
    rewrite roundDiv_signed by lia.
    rewrite Z.sgn_neg, Z.abs_neq by lia. unfold signed. lia.
  - rewrite roundDiv_0_l by assumption. reflexivity.
  - replace a with (signed false a) at 1 by reflexivity.
    rewrite roundDiv_signed by lia.
    rewrite Z.sgn_pos, Z.abs_eq by lia. unfold signed. lia.
Qed.
End Exact.

Lemma round_half_away_mul b n : 0 < b -> round_half_away (b * n) b = n.
Proof.
  intros Hb. unfold round_half_away.
  assert (Hu : forall k, 0 <= k -> nearest_up (b * k) b = k).
  { intros k Hk. apply nearest_up_unique; nia. }
  destruct (Z.lt_trichotomy n 0) as [Hneg|[->|Hpos]].
  - rewrite Z.sgn_neg, Z.abs_neq by nia.
    replace (- (b * n)) with (b * - n) by lia. rewrite Hu by lia. lia.
  - rewrite Z.mul_0_r. reflexivity.
  - rewrite Z.sgn_pos, Z.abs_eq by nia. rewrite Hu by lia. lia.
Qed.

Lemma round_half_away_nonneg a b : 0 < b -> 0 <= a -> 0 <= round_half_away a b.
Proof.
  intros Hb Ha. unfold round_half_away, nearest_up.
  assert (0 <= (2 * Z.abs a + b) / (2 * b)) by (apply Z.div_pos; lia).
  assert (0 <= Z.sgn a) by (apply Z.sgn_nonneg; lia). nia.
Qed.

Lemma round_half_away_neg_inv a b : 0 < b -> round_half_away a b < 0 -> a < 0.
Proof.
  intros Hb Hr. destruct (Z.ltb_spec a 0); [assumption|].
  pose proof (round_half_away_nonneg a b Hb ltac:(lia)). lia.
Qed.

Lemma round_half_away_pos_iff a b :
  0 < b -> 0 <= a -> (0 < round_half_away a b <-> b <= 2 * a).
Proof.
  intros Hb Ha. unfold round_half_away.
  pose proof (nearest_up_bounds (Z.abs a) b Hb) as Hk.
  destruct (Z.eq_dec a 0) as [->|Ha0].
  - simpl. lia.
  - rewrite Z.sgn_pos, Z.abs_eq in * by lia. rewrite Z.mul_1_l. split; nia.
Qed.

End Float64Facts.

(** * The engine *)

Import Float64Facts.

(** Remove the wrap-around of every int64 operation whose exact result is
    seen to fit, innermost first. *)
Ltac int64_fit :=
  unfold UnixNano, Unix0, Int64.add, Int64.sub, Int64.mul in *;
  repeat match goal with
    | |- context [Int64.wrap ?z] =>
        rewrite (Int64Facts.wrap_small z)
          by (unfold Int64.in_range, Int64.min_int, Int64.max_int in *; lia)
    end.

(** Evaluate [roundDiv] and the comparisons once their arguments are
    closed. *)
Ltac eval_closed :=
  repeat match goal with
    | |- context [roundDiv ?a ?b] => progress ring_simplify a
    | |- context [roundDiv ?a ?b] =>
        let v := eval vm_compute in (roundDiv a b) in
        progress change (roundDiv a b) with v
    | |- context [?a <? ?b] =>
        let v := eval vm_compute in (a <? b) in
        progress change (a <? b) with v
    | |- context [?a =? ?b] =>
        let v := eval vm_compute in (a =? b) in
        progress change (a =? b) with v
    | |- context [?a <=? ?b] =>
        let v := eval vm_compute in (a <=? b) in
        progress change (a <=? b) with v
    end.

Lemma gtb_max now tat : (if now >? tat then now else tat) = Z.max tat now.
Proof. rewrite Z.gtb_ltb. destruct (Z.ltb_spec tat now); lia. Qed.

Ltac max_fit :=
  repeat match goal with
    | |- context [Z.max ?a ?b] =>
        first [rewrite (Z.max_l a b) by lia | rewrite (Z.max_r a b) by lia]
    end.

Lemma outcome_eq (b b' : Bucket) l rem rem' ret ret' res res' :
  b = b' -> rem = rem' -> ret = ret' -> res = res' ->
  (b, Build_Result l rem ret res, @None error)
  = (b', Build_Result l rem' ret' res', None).
Proof. intros; subst; reflexivity. Qed.

(** One call of [ComputeRaw] on inputs that differ from a symbolic instant by
    constants. *)
Ltac raw_step Hei :=
  unfold ComputeRaw, toResult; cbv zeta; rewrite Hei, !gtb_max;
  int64_fit; max_fit; int64_fit; eval_closed; cbn [andb]; cbv iota;
  cbn [newTAT limited remaining retryIn resetIn];
  apply outcome_eq; lia.

(** ** The facade on valid parameters and the example *)

Section Scenario.
Context `{GoArch}.

Lemma Generate_valid now count opts :
  valid count opts ->
  Generate now count opts
  = (GenerateRaw (UnixNano now) count (Burst opts) (Rate opts) (Period opts),
     None).
Proof.
  intros (Hc & Hb & Hr & Hp). unfold Generate.
  replace (count <? 0) with false by (symmetry; apply Z.ltb_ge; lia).
  replace (Burst opts <=? 0) with false by (symmetry; apply Z.leb_gt; lia).
  replace (Rate opts <=? 0) with false by (symmetry; apply Z.leb_gt; lia).
  replace (Period opts <=? 0) with false by (symmetry; apply Z.leb_gt; lia).
  replace (count >? Burst opts) with false
    by (symmetry; rewrite Z.gtb_ltb; apply Z.ltb_ge; lia).
  reflexivity.
Qed.

Lemma Compute_valid now bucket cost opts :
  valid cost opts ->
  Compute now bucket cost opts
  = let r := ComputeRaw (UnixNano bucket) (UnixNano now)
               (Burst opts) (Rate opts) (Period opts) cost in
    (newTAT r, toResult r, None).
Proof.
  intros (Hc & Hb & Hr & Hp). unfold Compute.
  replace (cost <? 0) with false by (symmetry; apply Z.ltb_ge; lia).
  replace (Burst opts <=? 0) with false by (symmetry; apply Z.leb_gt; lia).
  replace (Rate opts <=? 0) with false by (symmetry; apply Z.leb_gt; lia).
  replace (Period opts <=? 0) with false by (symmetry; apply Z.leb_gt; lia).
  replace (cost >? Burst opts) with false
    by (symmetry; rewrite Z.gtb_ltb; apply Z.ltb_ge; lia).
  reflexivity.
Qed.

(** C1: with [Burst = 50], [Rate = 10] per second and a bucket generated
    with 25 units at [now], the calls of the package example, the first three
    at [now] and the last two seconds later, return exactly the results the
    example prints. *)
Theorem example_scenario (now : Time) :
  Int64.min_int + 10 * Second <= now <= Int64.max_int - 10 * Second ->
  let opts := {| Burst := 50; Rate := 10; Period := Second |} in
  let b0 := now + 2500 * Millisecond in
  let b1 := now + 3500 * Millisecond in
  let b3 := now + 5 * Second in
  Generate now 25 opts = (b0, None)
  /\ Compute now b0 10 opts
     = (b1, {| Limited := false; Remaining := 15; RetryIn := 0;
               ResetIn := 3500 * Millisecond |}, None)
  /\ Compute now b1 30 opts
     = (b1, {| Limited := true; Remaining := 15;
               RetryIn := 1500 * Millisecond;
               ResetIn := 3500 * Millisecond |}, None)
  /\ Compute now b1 15 opts
     = (b3, {| Limited := false; Remaining := 0; RetryIn := 0;
               ResetIn := 5 * Second |}, None)
  /\ Compute (now + 2 * Second) b3 0 opts
     = (b3, {| Limited := false; Remaining := 20; RetryIn := 0;
               ResetIn := 3 * Second |}, None).
Proof.
  intros Hnow opts b0 b1 b3.
  assert (Hv : forall n, 0 <= n <= 50 -> valid n opts)
    by (intros n Hn; unfold valid, opts, Second; simpl; lia).
  assert (Hei : roundDiv (10 ^ 9) 10 = 100000000) by (vm_compute; reflexivity).
  rewrite Generate_valid, !Compute_valid by (apply Hv; lia).
  subst opts b0 b1 b3. cbv zeta. cbn [Burst Rate Period].
  unfold Second, Millisecond, Int64.min_int, Int64.max_int in *.
  repeat split.
  - unfold GenerateRaw. rewrite Hei. int64_fit. f_equal; lia.
  - raw_step Hei.
  - raw_step Hei.
  - raw_step Hei.
  - raw_step Hei.
Qed.

End Scenario.

Lemma example_scenario_witness :
  Int64.min_int + 10 * Second <= testNow <= Int64.max_int - 10 * Second
  /\ @Generate amd64 testNow 25 {| Burst := 50; Rate := 10; Period := Second |}
     = (testNow + 2500 * Millisecond, None).
Proof.
  assert (Hnow : Int64.min_int + 10 * Second <= testNow
                 <= Int64.max_int - 10 * Second)
    by (vm_compute; split; discriminate).
  split; [exact Hnow|].
  exact (proj1 (@example_scenario amd64 testNow Hnow)).
Defined.

(** ** The raw engine *)

Section Raw.
Context `{GoArch}.

Lemma GenerateRaw_wrap now count burst rate period :
  GenerateRaw now count burst rate period
  = Int64.wrap (now + roundDiv period rate * (burst - count)).
Proof.
  unfold GenerateRaw, Int64.add, Int64.mul, Int64.sub.
  now rewrite Int64Facts.wrap_mul_r, Int64Facts.wrap_add_r.
Qed.

(** The clamp makes a raw call insensitive to how far the TAT lies in the
    past. *)
Lemma ComputeRaw_clamped tat now burst rate period cost :
  ComputeRaw (Z.max tat now) now burst rate period cost
  = ComputeRaw tat now burst rate period cost.
Proof.
  unfold ComputeRaw. cbv zeta. rewrite !gtb_max.
  now replace (Z.max (Z.max tat now) now) with (Z.max tat now) by lia.
Qed.

Lemma ComputeRaw_denied tat now burst rate period cost :
  limited (ComputeRaw tat now burst rate period cost) = true ->
  newTAT (ComputeRaw tat now burst rate period cost) = Z.max tat now.
Proof.
  unfold ComputeRaw. cbv zeta. rewrite !gtb_max.
  destruct (_ <? 0); [reflexivity|].
  destruct (_ && _); [reflexivity|]. discriminate.
Qed.

Lemma ComputeRaw_normal tat now burst rate period cost :
  normal_range (roundDiv period rate) tat now burst cost ->
  ComputeRaw tat now burst rate period cost
  = ComputeExact (roundDiv period rate) tat now burst cost.
Proof.
  unfold normal_range, ComputeRaw, ComputeExact. cbv zeta.
  set (ei := roundDiv period rate). rewrite !gtb_max.
  set (t' := Z.max tat now).
  intros (Hei & Hb & Hc & Hbo & Hnow & Htat).
  assert (Hinc : 0 <= ei * cost <= ei * burst) by nia.
  assert (Ht' : now <= t' <= now + 2 ^ 52) by (unfold t'; lia).
  unfold Int64.min_int, Int64.max_int in *.
  int64_fit.
  rewrite !roundDiv_exact by lia.
  reflexivity.
Qed.

End Raw.

Section Replenished.
Context `{GoArch}.

(** A bucket whose TAT is not in the future is full: every affordable
    request is allowed, whatever its cost. *)
Lemma ComputeRaw_replenished tat now burst rate period cost :
  let ei := roundDiv period rate in
  0 < ei -> 0 < burst -> 0 <= cost <= burst -> ei * burst <= 2 ^ 52 ->
  Int64.min_int <= tat <= now ->
  Int64.min_int + 2 ^ 52 <= now <= Int64.max_int - 2 ^ 53 ->
  ComputeRaw tat now burst rate period cost
  = Build_RawResult (now + ei * cost) false (burst - cost) 0 (ei * cost).
Proof.
  intros ei Hei Hb Hc Hbo Htat Hnow.
  rewrite ComputeRaw_normal by (unfold normal_range; fold ei; lia).
  fold ei. unfold ComputeExact. cbv zeta.
  replace (Z.max tat now) with now by lia.
  replace (now - (now + ei * cost - ei * burst)) with (ei * (burst - cost)) by lia.
  rewrite round_half_away_mul by assumption.
  replace (burst - cost <? 0) with false by (symmetry; apply Z.ltb_ge; lia).
  destruct (Z.eqb_spec (burst - cost) 0) as [Heq|Hne]; cbn [andb].
  - replace (ei * cost <=? 0) with false by (symmetry; apply Z.leb_gt; nia).
    f_equal; lia.
  - f_equal; lia.
Qed.

End Replenished.

(** ** Int64 arithmetic modulo [2^64] *)

Module Int64Modular.
Import Int64 Int64Facts.

Lemma wrap_divide a : (2 ^ 64 | wrap a - a).
Proof.
  unfold wrap. exists (- ((a + 2 ^ 63) / 2 ^ 64)).
  rewrite (Z.mod_eq (a + 2 ^ 63) (2 ^ 64)) by lia. ring.
Qed.

Lemma wrap_congr a b : (2 ^ 64 | a - b) -> wrap a = wrap b.
Proof.
  intros [k Hk]. unfold wrap. f_equal.
  replace (a + 2 ^ 63) with (b + 2 ^ 63 + k * 2 ^ 64) by lia.
  apply Z_mod_plus_full.
Qed.

Lemma wrap_add_l a b : wrap (wrap a + b) = wrap (a + b).
Proof.
  apply wrap_congr. replace (wrap a + b - (a + b)) with (wrap a - a) by ring.
  apply wrap_divide.
Qed.

Lemma wrap_sub_l a b : wrap (wrap a - b) = wrap (a - b).
Proof.
  apply wrap_congr. replace (wrap a - b - (a - b)) with (wrap a - a) by ring.
  apply wrap_divide.
Qed.

Lemma wrap_sub_r a b : wrap (a - wrap b) = wrap (a - b).
Proof.
  apply wrap_congr.
  replace (a - wrap b - (a - b)) with (- 1 * (wrap b - b)) by ring.
  apply Z.divide_mul_r, wrap_divide.
Qed.

Lemma wrap_mul_l a b : wrap (wrap a * b) = wrap (a * b).
Proof.
  apply wrap_congr. replace (wrap a * b - a * b) with ((wrap a - a) * b) by ring.
  apply Z.divide_mul_l, wrap_divide.
Qed.

(** [wrap] is the identity exactly on the int64 range. *)
Lemma wrap_eq_iff z : wrap z = z <-> in_range z.
Proof.
  split; [|apply wrap_small].
  intros Hz. rewrite <- Hz. apply wrap_in_range.
Qed.

End Int64Modular.

(** [ComputeRaw] with every int64 expression wrapped once: the wrap-arounds
    of the intermediate values cancel, so that only the exact values of the
    differences matter, not where [now] lies in the int64 range. *)
Lemma ComputeRaw_modular `{GoArch} tat now burst rate period cost :
  ComputeRaw tat now burst rate period cost
  = let ei := roundDiv period rate in
    let T := Z.max tat now in
    let diff := Int64.wrap (now - T - ei * cost + ei * burst) in
    if roundDiv diff ei <? 0 then
      Build_RawResult T true
        (roundDiv (Int64.wrap (now - T + ei * burst)) ei)
        (Int64.wrap (T + ei * cost - ei * burst - now)) (Int64.wrap (T - now))
    else if (roundDiv diff ei =? 0) && (Int64.wrap (ei * cost) <=? 0) then
      Build_RawResult T true 0 0 (Int64.wrap (T - now))
    else
      Build_RawResult (Int64.wrap (T + ei * cost)) false (roundDiv diff ei) 0
        (Int64.wrap (T + ei * cost - now)).
Proof.
  unfold ComputeRaw. cbv zeta. rewrite !gtb_max.
  set (ei := roundDiv period rate). set (T := Z.max tat now).
  assert (E4 : Int64.add T (Int64.mul ei cost) = Int64.wrap (T + ei * cost))
    by (unfold Int64.add, Int64.mul; apply Int64Facts.wrap_add_r).
  assert (E1 : Int64.sub now
                 (Int64.sub (Int64.add T (Int64.mul ei cost))
                    (Int64.mul ei burst))
               = Int64.wrap (now - T - ei * cost + ei * burst)).
  { rewrite E4. unfold Int64.sub, Int64.mul.
    rewrite Int64Modular.wrap_sub_r.
    replace (now - (Int64.wrap (T + ei * cost) - Int64.wrap (ei * burst)))
      with (now + Int64.wrap (ei * burst) - Int64.wrap (T + ei * cost))
      by ring.
    rewrite Int64Modular.wrap_sub_r.
    replace (now + Int64.wrap (ei * burst) - (T + ei * cost))
      with (now - T - ei * cost + Int64.wrap (ei * burst)) by ring.
    rewrite Int64Facts.wrap_add_r. reflexivity. }
  rewrite E1, E4.
  assert (E2 : Int64.sub now (Int64.sub T (Int64.mul ei burst))
               = Int64.wrap (now - T + ei * burst)).
  { unfold Int64.sub, Int64.mul. rewrite Int64Modular.wrap_sub_r.
    replace (now - (T - Int64.wrap (ei * burst)))
      with (now - T + Int64.wrap (ei * burst)) by ring.
    rewrite Int64Facts.wrap_add_r. reflexivity. }
  assert (E3 : Int64.mul (Int64.wrap (now - T - ei * cost + ei * burst)) (-1)
               = Int64.wrap (T + ei * cost - ei * burst - now)).
  { unfold Int64.mul. rewrite Int64Modular.wrap_mul_l. f_equal. ring. }
  assert (E5 : Int64.sub (Int64.wrap (T + ei * cost)) now
               = Int64.wrap (T + ei * cost - now))
    by (unfold Int64.sub; apply Int64Modular.wrap_sub_l).
  rewrite E2, E3, E5. reflexivity.
Qed.

(** ** Exact multiples and signs below [2^53] *)

Lemma nearest_even_multiple n D : 0 < D -> nearest_even (D * n) D = n.
Proof.
  intros HD. unfold nearest_even.
  replace (D * n) with (n * D) by ring.
  rewrite Z.div_mul, Z.mod_mul by lia.
  destruct D; [lia|reflexivity|lia].
Qed.

Lemma nearest_up_multiple n D : 0 < D -> nearest_up (n * D) D = n.
Proof. intros HD. apply nearest_up_unique; lia. Qed.

(** The division of an exact multiple is exact as long as both operands
    are exact in float64; no second rounding takes place. *)
Lemma roundDiv_multiple `{GoArch} b n :
  0 < b < 2 ^ 53 -> 0 <= n -> b * n < 2 ^ 53 -> roundDiv (b * n) b = n.
Proof.
  intros Hb Hn Hbn.
  destruct (Z.eq_dec n 0) as [->|Hn0].
  { rewrite Z.mul_0_r. apply roundDiv_0_l; assumption. }
  destruct (roundDiv_float false (b * n) b ltac:(nia) Hb) as (t & Ht & _ & Hr).
  simpl signed in Hr. rewrite Hr.
  replace (b * n * 2 ^ t) with (b * (n * 2 ^ t)) by ring.
  rewrite nearest_even_multiple by lia.
  apply nearest_up_multiple. apply Z.pow_pos_nonneg; lia.
Qed.

(** Below [2^53] the rounded quotient never has the opposite sign of the
    dividend. *)
Lemma roundDiv_sign `{GoArch} a b :
  - 2 ^ 53 < a < 2 ^ 53 -> 0 < b < 2 ^ 53 ->
  (0 <= a -> 0 <= roundDiv a b) /\ (a <= 0 -> roundDiv a b <= 0).
Proof.
  intros Ha Hb.
  assert (Hpos : forall s x, 0 < x < 2 ^ 53 ->
            exists n, 0 <= n /\ roundDiv (signed s x) b = signed s n).
  { intros s x Hx.
    destruct (roundDiv_float s x b Hx Hb) as (t & Ht & Hn & Hr).
    eexists. split; [|exact Hr].
    assert (0 < 2 ^ t) by (apply Z.pow_pos_nonneg; lia).
    assert (0 <= x * 2 ^ t / b) by (apply Z.div_pos; nia).
    unfold nearest_up. apply Z.div_pos; [|lia].
    destruct (nearest_even_cases (x * 2 ^ t) b ltac:(lia)) as [->|[-> _]];
      lia. }
  destruct (Z.lt_trichotomy a 0) as [Hneg|[->|Hp]].
  - destruct (Hpos true (- a) ltac:(lia)) as (n & Hn & Hr).
    simpl signed in Hr. replace (- - a) with a in Hr by lia. rewrite Hr. lia.
  - rewrite roundDiv_0_l by assumption. lia.
  - destruct (Hpos false a ltac:(lia)) as (n & Hn & Hr).
    simpl signed in Hr. rewrite Hr. lia.
Qed.

(** ** A TAT that is not ahead of now, anywhere in the int64 range *)

(** Such a bucket is full wherever [now] lies: the request is allowed, and
    only the new TAT is subject to the wrap-around. *)
Lemma ComputeRaw_not_ahead `{GoArch} tat now burst rate period cost :
  let emissionInterval := roundDiv period rate in
  0 < emissionInterval -> 0 < burst -> 0 <= cost <= burst ->
  emissionInterval * burst < 2 ^ 53 ->
  tat <= now ->
  ComputeRaw tat now burst rate period cost
  = {| newTAT := Int64.wrap (now + emissionInterval * cost);
       limited := false;
       remaining := burst - cost; retryIn := 0;
       resetIn := emissionInterval * cost |}.
Proof.
  intros ei Hei Hburst Hcost Hbo Htat.
  rewrite ComputeRaw_modular. cbv zeta. fold ei.
  rewrite Z.max_r by assumption.
  assert (Hc : 0 <= ei * cost <= ei * burst) by nia.
  assert (Hd : 0 <= ei * (burst - cost)) by nia.
  replace (now - now - ei * cost + ei * burst) with (ei * (burst - cost))
    by ring.
  replace (now + ei * cost - now) with (ei * cost) by ring.
  rewrite (Int64Facts.wrap_small (ei * (burst - cost)))
    by (unfold Int64.in_range, Int64.min_int, Int64.max_int; lia).
  rewrite !(Int64Facts.wrap_small (ei * cost))
    by (unfold Int64.in_range, Int64.min_int, Int64.max_int; lia).
  rewrite roundDiv_multiple by nia.
  destruct (Z.ltb_spec (burst - cost) 0) as [Hlt|_]; [lia|].
  destruct (Z.eqb_spec (burst - cost) 0) as [Heq|Hne];
    [destruct (Z.leb_spec (ei * cost) 0) as [Hle|_]; [nia|]|];
    reflexivity.
Qed.

(** ** Denied calls and zero-cost queries *)

Lemma ComputeRaw_zero_cost `{GoArch} tat now burst rate period :
  Int64.in_range tat -> Int64.in_range now ->
  newTAT (ComputeRaw tat now burst rate period 0) = Z.max tat now.
Proof.
  intros Ht Hn. unfold ComputeRaw. cbv zeta. rewrite !gtb_max.
  unfold Int64.mul. rewrite Z.mul_0_r.
  change (Int64.wrap 0) with 0. unfold Int64.add. rewrite Z.add_0_r.
  rewrite Int64Facts.wrap_small by (unfold Int64.in_range in *; lia).
  destruct (_ <? 0); [reflexivity|].
  destruct (_ && _); reflexivity.
Qed.

(** C2 (as amended): whenever [ComputeRaw] reports [limited = true] the TAT
    it returns is the clamped input [max tat now], hence the input TAT itself
    when that is not in the past, and the same call on the returned TAT at
    the same [now] gives the identical denied result; with a positive
    emission interval, [0 < burst], [0 <= cost <= burst] and
    [emissionInterval * burst < 2^53] a denied call always returns the input
    TAT, wherever [tat] and [now] lie. *)
Theorem denied_returns_clamped_tat `{GoArch} tat now burst rate period cost :
  limited (ComputeRaw tat now burst rate period cost) = true ->
  newTAT (ComputeRaw tat now burst rate period cost) = Z.max tat now
  /\ (now <= tat -> newTAT (ComputeRaw tat now burst rate period cost) = tat)
  /\ ComputeRaw (newTAT (ComputeRaw tat now burst rate period cost))
       now burst rate period cost
     = ComputeRaw tat now burst rate period cost
  /\ (0 < roundDiv period rate -> 0 < burst -> 0 <= cost <= burst ->
      roundDiv period rate * burst < 2 ^ 53 ->
      newTAT (ComputeRaw tat now burst rate period cost) = tat).
Proof.
  intros Hlim. pose proof (ComputeRaw_denied _ _ _ _ _ _ Hlim) as Hnew.
  rewrite Hnew. split; [reflexivity|]. split; [lia|].
  split; [apply ComputeRaw_clamped|].
  intros Hei Hb Hc Hbo.
  destruct (Z.leb_spec now tat) as [|Hlt]; [lia|exfalso].
  rewrite ComputeRaw_not_ahead in Hlim by lia. discriminate.
Qed.

Lemma denied_returns_clamped_tat_witness :
  limited (@ComputeRaw amd64 (4 * Second) 0 4 10 (10 * Second) 1) = true
  /\ newTAT (@ComputeRaw amd64 (4 * Second) 0 4 10 (10 * Second) 1)
     = 4 * Second.
Proof.
  assert (Hlim : limited (@ComputeRaw amd64 (4 * Second) 0 4 10
                            (10 * Second) 1) = true)
    by (vm_compute; reflexivity).
  split; [exact Hlim|].
  destruct (@denied_returns_clamped_tat amd64 (4 * Second) 0 4 10
              (10 * Second) 1 Hlim) as (_ & _ & _ & Hkeep).
  apply Hkeep.
  - vm_compute. reflexivity.
  - vm_compute. reflexivity.
  - vm_compute. split; discriminate.
  - vm_compute. reflexivity.
Defined.

(** C2 as stated fails: with [burst = 2^62] and an emission interval of 4
    the burst offset wraps to 0, the zero-cost query at [now = 1] on the stale
    TAT 0 is denied, and the TAT that comes back is 1. *)
Lemma denied_moves_stale_tat :
  0 < 2 ^ 62 /\ 0 < 1 /\ 0 < 4 /\ 0 <= 0 <= 2 ^ 62
  /\ limited (@ComputeRaw amd64 0 1 (2 ^ 62) 1 4 0) = true
  /\ newTAT (@ComputeRaw amd64 0 1 (2 ^ 62) 1 4 0) <> 0.
Proof. vm_compute. repeat split; discriminate. Qed.

(** C3 (as amended): a zero-cost [Compute] returns the bucket clamped to
    [now], that is the input bucket whenever its TAT is not in the past, and
    a second zero-cost call at the same [now] returns the same bucket and the
    same [Result]. *)
Theorem zero_cost_returns_clamped_bucket `{GoArch} now bucket opts :
  valid 0 opts ->
  exists r,
    Compute now bucket 0 opts
    = (Z.max (UnixNano bucket) (UnixNano now), r, None)
    /\ Compute now (Z.max (UnixNano bucket) (UnixNano now)) 0 opts
       = (Z.max (UnixNano bucket) (UnixNano now), r, None)
    /\ (Int64.in_range bucket -> UnixNano now <= bucket ->
        Z.max (UnixNano bucket) (UnixNano now) = bucket).
Proof.
  intros Hv. rewrite !Compute_valid by assumption. cbv zeta.
  pose proof (Int64Facts.wrap_in_range bucket) as Hb.
  pose proof (Int64Facts.wrap_in_range now) as Hn.
  fold (UnixNano bucket) in Hb. fold (UnixNano now) in Hn.
  set (tat := UnixNano bucket) in *. set (n := UnixNano now) in *.
  assert (Hmax : UnixNano (Z.max tat n) = Z.max tat n).
  { apply Int64Facts.wrap_small. unfold Int64.in_range in *. lia. }
  rewrite Hmax, ComputeRaw_clamped, ComputeRaw_zero_cost by assumption.
  eexists. split; [reflexivity|]. split; [reflexivity|].
  intros Hin Hle. unfold tat, UnixNano in *.
  rewrite (Int64Facts.wrap_small bucket) in * by assumption. lia.
Qed.

Lemma zero_cost_returns_clamped_bucket_witness :
  fst (fst (@Compute amd64 testNow (testNow + 5 * Second) 0
              {| Burst := 50; Rate := 10; Period := Second |}))
  = testNow + 5 * Second.
Proof.
  destruct (@zero_cost_returns_clamped_bucket amd64 testNow
              (testNow + 5 * Second)
              {| Burst := 50; Rate := 10; Period := Second |})
    as (r & Hc & _ & _).
  - unfold valid; simpl; unfold Second; lia.
  - rewrite Hc. reflexivity.
Defined.

(** C3 as stated fails: a zero-cost query one second after the TAT of a full
    bucket returns a bucket whose TAT is [now], not the input bucket. *)
Lemma zero_cost_moves_stale_bucket :
  @Compute amd64 (testNow + Second) testNow 0
     {| Burst := 50; Rate := 10; Period := Second |}
  = (testNow + Second,
     {| Limited := false; Remaining := 50; RetryIn := 0; ResetIn := 0 |},
     None)
  /\ testNow + Second <> testNow.
Proof. vm_compute. split; [reflexivity|discriminate]. Qed.

(** ** Validation *)

(** The check both [Generate] and [Compute] start with. *)
Lemma check_invalid n opts :
  (n <? 0) || (Burst opts <=? 0) || (Rate opts <=? 0) || (Period opts <=? 0)
  = true
  <-> n < 0 \/ Burst opts <= 0 \/ Rate opts <= 0 \/ Period opts <= 0.
Proof. rewrite !orb_true_iff, Z.ltb_lt, !Z.leb_le. tauto. Qed.

(** C4: [Generate] and [Compute] answer [ErrInvalidParameter] exactly when
    the count or cost is negative or one of [Burst], [Rate], [Period] is not
    positive, otherwise [ErrCostHigherThanBurst] exactly when the count or
    cost exceeds [Burst]; with an error [Generate] returns the zero bucket
    and [Compute] the input bucket and the zero [Result], and there is no
    error exactly on valid parameters. *)
Theorem validation_errors `{GoArch} now bucket n opts :
  let invalid :=
    n < 0 \/ Burst opts <= 0 \/ Rate opts <= 0 \/ Period opts <= 0 in
  (snd (Generate now n opts) = Some ErrInvalidParameter <-> invalid)
  /\ (snd (Compute now bucket n opts) = Some ErrInvalidParameter <-> invalid)
  /\ (snd (Generate now n opts) = Some ErrCostHigherThanBurst
      <-> ~ invalid /\ Burst opts < n)
  /\ (snd (Compute now bucket n opts) = Some ErrCostHigherThanBurst
      <-> ~ invalid /\ Burst opts < n)
  /\ (snd (Generate now n opts) = None <-> valid n opts)
  /\ (snd (Compute now bucket n opts) = None <-> valid n opts)
  /\ (snd (Generate now n opts) <> None ->
      fst (Generate now n opts) = zeroBucket)
  /\ (snd (Compute now bucket n opts) <> None ->
      fst (Compute now bucket n opts) = (bucket, zeroResult)).
Proof.
  intros invalid. pose proof (check_invalid n opts) as Hchk. fold invalid in Hchk.
  unfold Generate, Compute, valid.
  destruct ((n <? 0) || (Burst opts <=? 0) || (Rate opts <=? 0)
            || (Period opts <=? 0)) eqn:Hinv.
  - assert (Hi : invalid) by (apply Hchk; reflexivity).
    cbn [fst snd]. unfold invalid in Hi.
    repeat split; try tauto; try discriminate; try lia; intros; try easy.
  - assert (Hi : ~ invalid) by (intros Hi; apply Hchk in Hi; discriminate).
    unfold invalid in Hi. rewrite Z.gtb_ltb.
    destruct (Z.ltb_spec (Burst opts) n) as [Hgt|Hle]; cbn [fst snd];
      repeat split; try tauto; try discriminate; try lia; intros; try easy.
Qed.

(** ** The emission interval *)

(** C5 (as amended): for [|period| <= 2^52] and [0 < rate < 2^53] the
    emission interval [roundDiv period rate] is the integer nearest to the
    rational [period / rate], ties rounded away from zero. *)
Theorem roundDiv_nearest_integer `{GoArch} period rate :
  - 2 ^ 52 <= period <= 2 ^ 52 -> 0 < rate < 2 ^ 53 ->
  let r := roundDiv period rate in
  r = round_half_away period rate
  /\ 2 * Z.abs (rate * r - period) <= rate
  /\ (2 * Z.abs (rate * r - period) = rate -> Z.abs period < Z.abs (rate * r)).
Proof.
  intros Hp Hr r. unfold r. rewrite roundDiv_exact by assumption.
  split; [reflexivity|]. unfold round_half_away.
  pose proof (nearest_up_bounds (Z.abs period) rate ltac:(lia)) as Hk.
  set (k := nearest_up (Z.abs period) rate) in *. clearbody k. clear r.
  destruct (Z.lt_trichotomy period 0) as [Hneg|[->|Hpos]].
  - rewrite Z.sgn_neg by lia. rewrite Z.abs_neq in Hk by lia.
    replace (rate * (-1 * k) - period) with (- period - rate * k) by ring.
    replace (rate * (-1 * k)) with (- (rate * k)) by ring.
    assert (0 <= k) by nia. assert (0 <= rate * k) by nia. split; lia.
  - change (Z.sgn 0) with 0 in *. change (Z.abs 0) with 0 in *.
    rewrite Z.mul_0_l, Z.mul_0_r. simpl. split; lia.
  - rewrite Z.sgn_pos by lia. rewrite Z.abs_eq in Hk by lia.
    rewrite Z.mul_1_l. assert (0 <= k) by nia. assert (0 <= rate * k) by nia. split; lia.
Qed.

Lemma roundDiv_nearest_integer_witness :
  @roundDiv amd64 Second 3 = 333333333.
Proof.
  transitivity (round_half_away Second 3); [|vm_compute; reflexivity].
  apply (@roundDiv_nearest_integer amd64 Second 3); vm_compute;
    split; discriminate || reflexivity.
Defined.

(** C5 as stated fails: [2^53 + 1] is not a float64, the conversion rounds it
    to [2^53], and so does [roundDiv] when dividing it by 1. *)
Lemma roundDiv_inexact_above_2p53 :
  0 < 1 /\ Int64.in_range (2 ^ 53 + 1)
  /\ @roundDiv amd64 (2 ^ 53 + 1) 1 = 2 ^ 53
  /\ round_half_away (2 ^ 53 + 1) 1 = 2 ^ 53 + 1.
Proof. vm_compute. repeat split; discriminate. Qed.

(** The bound [2^52] on the dividend is needed even when both operands are
    exact in float64: the quotient below is just under 1.5, the division
    rounds it to 1.5 and [math.Round] sends that to 2. *)
Lemma roundDiv_double_rounding :
  @roundDiv amd64 (3 * 2 ^ 51 + 1) (2 ^ 52 + 1) = 2
  /\ round_half_away (3 * 2 ^ 51 + 1) (2 ^ 52 + 1) = 1.
Proof. vm_compute. split; reflexivity. Qed.

(** ** Seeding *)

(** C6 (as amended): [GenerateRaw] returns
    [now + emissionInterval * (burst - count)] wrapped to int64, which is
    that value itself exactly when it lies in the int64 range; and for every
    [now] whose nanoseconds are at least 2.5 seconds below the largest int64,
    [Generate] with 75 of 100 units followed by a zero-cost [Compute] at the
    same instant reports 75 remaining units and a reset time of
    [emissionInterval * (Burst - count)], 2.5 seconds. *)
Theorem generate_seeds_tat `{GoArch} (now count burst rate period : Z) :
  let emissionInterval := roundDiv period rate in
  GenerateRaw now count burst rate period
  = Int64.wrap (now + emissionInterval * (burst - count))
  /\ (GenerateRaw now count burst rate period
      = now + emissionInterval * (burst - count)
      <-> Int64.in_range (now + emissionInterval * (burst - count)))
  /\ forall t : Time,
       UnixNano t + 2500 * Millisecond <= Int64.max_int ->
       let opts := {| Burst := 100; Rate := 10; Period := Second |} in
       exists bucket,
         Generate t 75 opts = (bucket, None)
         /\ Compute t bucket 0 opts
            = (bucket,
               {| Limited := false; Remaining := 75; RetryIn := 0;
                  ResetIn := roundDiv (Period opts) (Rate opts)
                             * (Burst opts - 75) |}, None)
         /\ roundDiv (Period opts) (Rate opts) * (Burst opts - 75)
            = 2500 * Millisecond.
Proof.
  intros ei. split; [apply GenerateRaw_wrap|]. split.
  - rewrite GenerateRaw_wrap. apply Int64Modular.wrap_eq_iff.
  - intros t Ht opts. exists (UnixNano t + 2500 * Millisecond).
    assert (Hv : forall n, 0 <= n <= 100 -> valid n opts)
      by (intros n Hn; unfold valid, opts, Second; simpl; lia).
    assert (Hei : roundDiv (10 ^ 9) 10 = 100000000)
      by (vm_compute; reflexivity).
    pose proof (Int64Facts.wrap_in_range t) as Hn. fold (UnixNano t) in Hn.
    rewrite Generate_valid, Compute_valid by (apply Hv; lia).
    subst opts. cbv zeta. cbn [Burst Rate Period].
    set (n := UnixNano t) in *.
    assert (Htat : Int64.in_range (n + 2500 * Millisecond))
      by (unfold Int64.in_range, Millisecond, Int64.min_int in *; lia).
    unfold Second, Millisecond in *.
    split; [|split].
    + rewrite GenerateRaw_wrap, Hei.
      replace (n + 100000000 * (100 - 75)) with (n + 2500 * 10 ^ 6) by lia.
      rewrite Int64Facts.wrap_small by assumption. reflexivity.
    + assert (Hb : UnixNano (n + 2500 * 10 ^ 6) = n + 2500 * 10 ^ 6)
        by (apply Int64Facts.wrap_small; assumption).
      rewrite Hb, ComputeRaw_modular, Hei. cbv zeta.
      rewrite Z.max_l by lia.
      replace (n - (n + 2500 * 10 ^ 6) - 100000000 * 0 + 100000000 * 100)
        with 7500000000 by lia.
      replace (n + 2500 * 10 ^ 6 + 100000000 * 0 - n) with 2500000000 by lia.
      replace (n + 2500 * 10 ^ 6 + 100000000 * 0) with (n + 2500 * 10 ^ 6)
        by lia.
      rewrite (Int64Facts.wrap_small (n + 2500 * 10 ^ 6)) by assumption.
      replace (Int64.wrap 7500000000) with 7500000000
        by (vm_compute; reflexivity).
      replace (Int64.wrap 2500000000) with 2500000000
        by (vm_compute; reflexivity).
      replace (roundDiv 7500000000 100000000) with 75
        by (vm_compute; reflexivity).
      replace (75 <? 0) with false by reflexivity.
      replace (75 =? 0) with false by reflexivity.
      cbn [andb toResult newTAT limited remaining retryIn resetIn].
      apply outcome_eq; reflexivity.
    + rewrite Hei. reflexivity.
Qed.

Lemma generate_seeds_tat_witness :
  @GenerateRaw amd64 testNow 75 100 10 Second = testNow + 2500 * Millisecond
  /\ exists bucket,
       @Generate amd64 testNow 75 {| Burst := 100; Rate := 10; Period := Second |}
       = (bucket, None).
Proof.
  destruct (@generate_seeds_tat amd64 testNow 75 100 10 Second)
    as (_ & Hexact & Hscenario).
  split.
  - apply Hexact. vm_compute. split; discriminate.
  - destruct (Hscenario testNow) as (bucket & Hg & _).
    + vm_compute. discriminate.
    + exists bucket. exact Hg.
Defined.

(** C6 as stated fails: at the largest int64 instant, with an emission
    interval of 1 and one unit to seed, the sum [2^63] does not fit and
    [GenerateRaw] returns [-2^63]; and one second before that instant the
    75-of-100 bucket is seeded in the far past, so that the zero-cost query
    reports 100 remaining units and nothing to reset. *)
Lemma generate_raw_wraps_around :
  0 < 1
  /\ @GenerateRaw amd64 Int64.max_int 0 1 1 1 = Int64.min_int
  /\ @GenerateRaw amd64 Int64.max_int 0 1 1 1
     <> Int64.max_int + @roundDiv amd64 1 1 * (1 - 0)
  /\ (let opts := {| Burst := 100; Rate := 10; Period := Second |} in
      let now := Unix0 (Int64.max_int - Second) in
      @Compute amd64 now (fst (@Generate amd64 now 75 opts)) 0 opts
      = (now, {| Limited := false; Remaining := 100; RetryIn := 0;
                 ResetIn := 0 |}, None)).
Proof. vm_compute. repeat split; discriminate. Qed.

(** ** Allowed calls *)

Lemma ComputeRaw_allowed `{GoArch} tat now burst rate period cost :
  limited (ComputeRaw tat now burst rate period cost) = false ->
  newTAT (ComputeRaw tat now burst rate period cost)
  = Int64.wrap (Z.max tat now + roundDiv period rate * cost).
Proof.
  unfold ComputeRaw. cbv zeta. rewrite !gtb_max.
  destruct (_ <? 0); [discriminate|].
  destruct (_ && _); [discriminate|]. intros _. cbn [newTAT].
  unfold Int64.add, Int64.mul. apply Int64Facts.wrap_add_r.
Qed.

Lemma ComputeRaw_allowed_le `{GoArch} tat now burst rate period cost :
  0 <= roundDiv period rate -> 0 <= cost ->
  Int64.in_range tat -> Int64.in_range now ->
  Z.max tat now + roundDiv period rate * cost <= Int64.max_int ->
  limited (ComputeRaw tat now burst rate period cost) = false ->
  tat <= newTAT (ComputeRaw tat now burst rate period cost).
Proof.
  intros Hei Hc Ht Hn Hfit Hlim. rewrite ComputeRaw_allowed by assumption.
  rewrite Int64Facts.wrap_small; unfold Int64.in_range in *; nia.
Qed.

Lemma newTAT_in_range `{GoArch} tat now burst rate period cost :
  Int64.in_range tat -> Int64.in_range now ->
  Int64.in_range (newTAT (ComputeRaw tat now burst rate period cost)).
Proof.
  intros Ht Hn. unfold ComputeRaw. cbv zeta. rewrite !gtb_max.
  assert (Int64.in_range (Z.max tat now)) by (unfold Int64.in_range in *; lia).
  destruct (_ <? 0); [assumption|].
  destruct (_ && _); [assumption|]. apply Int64Facts.wrap_in_range.
Qed.

(** C8 (as amended): with a non-negative emission interval, an allowed call
    with positive cost whose new TAT [max tat now + emissionInterval * cost]
    does not exceed the int64 range returns a TAT that is at least the input
    TAT, and along a chain of such calls the stored TATs never decrease. *)
Theorem allowed_tat_nondecreasing `{GoArch} tat now burst rate period cost
    (calls : list (Z * Z)) :
  0 <= roundDiv period rate -> Int64.in_range tat ->
  (0 < cost -> Int64.in_range now ->
   Z.max tat now + roundDiv period rate * cost <= Int64.max_int ->
   limited (ComputeRaw tat now burst rate period cost) = false ->
   tat <= newTAT (ComputeRaw tat now burst rate period cost))
  /\ (allowedChain burst rate period tat calls ->
      Sorted Z.le (tat :: storedTATs burst rate period tat calls)).
Proof.
  intros Hei Ht. split.
  - intros Hc Hn Hfit Hlim. apply ComputeRaw_allowed_le; auto; lia.
  - revert tat Ht. induction calls as [|[n c] rest IH]; intros tat Ht Hch.
    + repeat constructor.
    + cbn [allowedChain] in Hch. destruct Hch as (Hc & Hn & Hfit & Hlim & Hrest).
      cbn [storedTATs]. constructor.
      * apply IH; [|assumption]. now apply newTAT_in_range.
      * constructor. apply ComputeRaw_allowed_le; auto; lia.
Qed.

Lemma allowed_tat_nondecreasing_witness :
  Sorted Z.le
    (0 :: @storedTATs amd64 4 10 (10 * Second) 0 [(0, 1); (0, 1); (Second, 2)]).
Proof.
  apply (@allowed_tat_nondecreasing amd64 0 0 4 10 (10 * Second) 1).
  - vm_compute. discriminate.
  - vm_compute. split; discriminate.
  - vm_compute. repeat split; discriminate.
Defined.

(** C8 as stated fails: at the last representable instant the new TAT of an
    allowed call wraps around to the first one. *)
Lemma allowed_tat_wraps_around :
  0 < 1 /\ 0 < 1 <= 1
  /\ limited (@ComputeRaw amd64 Int64.max_int Int64.max_int 1 1 1 1) = false
  /\ newTAT (@ComputeRaw amd64 Int64.max_int Int64.max_int 1 1 1 1)
     = Int64.min_int
  /\ ~ Int64.max_int
       <= newTAT (@ComputeRaw amd64 Int64.max_int Int64.max_int 1 1 1 1).
Proof. vm_compute. repeat split; try discriminate. intros Hle. now apply Hle. Qed.

(** ** Signs of the reported values *)

(** C7 (as amended): on valid parameters with a positive emission interval,
    [emissionInterval * Burst < 2^53] and the bucket's TAT, [UnixNano bucket],
    less than [2^53] ns after [UnixNano now], [Compute] succeeds with
    [RetryIn >= 0] and [ResetIn >= 0], wherever the two instants lie, also
    when [now] is earlier than previous calls and for the zero [Bucket]; and
    [Remaining >= 0] holds whenever the bucket's TAT is at most
    [UnixNano now + emissionInterval * Burst]. *)
Theorem result_fields_nonneg `{GoArch} now bucket cost opts :
  let emissionInterval := roundDiv (Period opts) (Rate opts) in
  valid cost opts ->
  0 < emissionInterval -> emissionInterval * Burst opts < 2 ^ 53 ->
  UnixNano bucket - UnixNano now < 2 ^ 53 ->
  exists bucket' r,
    Compute now bucket cost opts = (bucket', r, None)
    /\ 0 <= RetryIn r /\ 0 <= ResetIn r
    /\ (UnixNano bucket <= UnixNano now + emissionInterval * Burst opts ->
        0 <= Remaining r).
Proof.
  intros ei Hv Hei Hbo Hahead. rewrite Compute_valid by assumption.
  cbv zeta. eexists _, _. split; [reflexivity|].
  destruct Hv as (Hc & Hb & _ & _).
  rewrite ComputeRaw_modular. cbv zeta. fold ei.
  pose proof (Int64Facts.wrap_in_range bucket) as Ht.
  pose proof (Int64Facts.wrap_in_range now) as Hn.
  fold (UnixNano bucket) in Ht. fold (UnixNano now) in Hn.
  set (tat := UnixNano bucket) in *. set (n := UnixNano now) in *.
  set (T := Z.max tat n).
  assert (HT : 0 <= T - n < 2 ^ 53) by (unfold T; lia).
  assert (Hinc : 0 <= ei * cost <= ei * Burst opts) by nia.
  rewrite (Int64Facts.wrap_small (n - T - ei * cost + ei * Burst opts)),
    (Int64Facts.wrap_small (n - T + ei * Burst opts)),
    (Int64Facts.wrap_small (T + ei * cost - ei * Burst opts - n)),
    (Int64Facts.wrap_small (T - n)),
    (Int64Facts.wrap_small (T + ei * cost - n))
    by (unfold Int64.in_range, Int64.min_int, Int64.max_int; lia).
  destruct (roundDiv_sign (n - T - ei * cost + ei * Burst opts) ei
              ltac:(lia) ltac:(lia)) as [Hpos Hneg].
  destruct (roundDiv_sign (n - T + ei * Burst opts) ei
              ltac:(lia) ltac:(lia)) as [Hpos' _].
  destruct (Z.ltb_spec (roundDiv (n - T - ei * cost + ei * Burst opts) ei) 0)
    as [Hlt|Hge].
  - cbn [toResult RetryIn ResetIn Remaining retryIn resetIn remaining].
    split; [lia|]. split; [lia|].
    intros Hfull. apply Hpos'. unfold T. lia.
  - destruct (_ && _);
      cbn [toResult RetryIn ResetIn Remaining retryIn resetIn remaining];
      repeat split; lia.
Qed.

Lemma result_fields_nonneg_witness :
  exists bucket' r,
    @Compute amd64 testNow zeroBucket 1 testOpts = (bucket', r, None)
    /\ 0 <= RetryIn r /\ 0 <= ResetIn r /\ 0 <= Remaining r.
Proof.
  destruct (@result_fields_nonneg amd64 testNow zeroBucket 1 testOpts)
    as (b & r & Hc & Hretry & Hreset & Hrem);
    [vm_compute; repeat split; discriminate
    | vm_compute; reflexivity | vm_compute; reflexivity
    | vm_compute; reflexivity |].
  exists b, r. split; [exact Hc|]. split; [exact Hretry|].
  split; [exact Hreset|]. apply Hrem. vm_compute. discriminate.
Defined.

(** C7 as stated fails: a bucket seeded empty at [testNow] and asked for one
    unit at an instant ten seconds earlier reports [Remaining = -10]. *)
Lemma remaining_negative_when_now_earlier :
  let opts := {| Burst := 4; Rate := 10; Period := 10 * Second |} in
  @Generate amd64 testNow 0 opts = (testNow + 4 * Second, None)
  /\ @Compute amd64 (testNow - 10 * Second) (testNow + 4 * Second) 1 opts
     = (testNow + 4 * Second,
        {| Limited := true; Remaining := -10; RetryIn := 11 * Second;
           ResetIn := 14 * Second |}, None)
  /\ ~ 0 <= -10.
Proof. vm_compute. repeat split. intros Hle. now apply Hle. Qed.

(** The distance of the TAT from [now] has to be bounded as well: between
    the two ends of the int64 range it wraps around and the reset time of
    an allowed query comes out negative. *)
Lemma reset_negative_when_tat_far_ahead :
  @Compute amd64 (Unix0 Int64.min_int) (Unix0 Int64.max_int) 0 testOpts
  = (Unix0 Int64.max_int,
     {| Limited := false; Remaining := 4; RetryIn := 0; ResetIn := -1 |},
     None).
Proof. vm_compute. reflexivity. Qed.

(** ** A zero emission interval *)

(** C9: the emission interval of the valid options
    [{Burst: 1, Rate: 10, Period: 1}] rounds to zero and [ComputeRaw] then
    divides by it: the quotient is a NaN, whose conversion to int64 is left
    to the implementation; amd64 reports [Remaining = -2^63]. *)
Theorem emission_interval_can_be_zero :
  valid 0 {| Burst := 1; Rate := 10; Period := 1 |}
  /\ (forall A : GoArch, @roundDiv A 1 10 = 0)
  /\ Float64.Round (Float64.div (Float64.of_int64 0) (Float64.of_int64 0))
     = S754_nan
  /\ @ComputeRaw amd64 0 5 1 10 1 0
     = {| newTAT := 5; limited := true; remaining := Int64.min_int;
          retryIn := 0; resetIn := 0 |}
  /\ @ComputeRaw arm64 0 5 1 10 1 0
     = {| newTAT := 5; limited := true; remaining := 0;
          retryIn := 0; resetIn := 0 |}.
Proof.
  split; [unfold valid; simpl; lia|].
  split; [intros A; vm_compute; reflexivity|].
  vm_compute. repeat split.
Qed.

(** For operands that are exact in float64 the emission interval is never
    negative, and positive exactly when the period is at least half the
    rate. *)
Lemma emission_interval_nonneg `{GoArch} period rate :
  0 <= period <= 2 ^ 52 -> 0 < rate < 2 ^ 53 -> 0 <= roundDiv period rate.
Proof.
  intros Hp Hr. rewrite roundDiv_exact by lia.
  apply round_half_away_nonneg; lia.
Qed.

Lemma emission_interval_pos `{GoArch} period rate :
  0 < period <= 2 ^ 52 -> 0 < rate < 2 ^ 53 ->
  0 < roundDiv period rate <-> rate <= 2 * period.
Proof.
  intros Hp Hr. rewrite roundDiv_exact by lia.
  apply round_half_away_pos_iff; lia.
Qed.

(** ** A replenished bucket *)

(** C10 (as amended): a bucket at or past full replenishment ([tat <= now])
    allows every request with [1 <= cost <= burst], with
    [remaining = burst - cost], the new TAT [now + emissionInterval * cost]
    and [retryIn = 0], provided the emission interval is positive,
    [emissionInterval * burst < 2^53] and the new TAT lies in the int64
    range. *)
Theorem replenished_bucket_allows `{GoArch} tat now burst rate period cost :
  let emissionInterval := roundDiv period rate in
  0 < emissionInterval -> 1 <= cost <= burst ->
  emissionInterval * burst < 2 ^ 53 ->
  tat <= now ->
  Int64.in_range (now + emissionInterval * cost) ->
  ComputeRaw tat now burst rate period cost
  = {| newTAT := now + emissionInterval * cost; limited := false;
       remaining := burst - cost; retryIn := 0;
       resetIn := emissionInterval * cost |}.
Proof.
  intros ei Hei Hc Hbo Htat Hfit.
  rewrite ComputeRaw_not_ahead by (fold ei; lia). fold ei.
  rewrite Int64Facts.wrap_small by assumption. reflexivity.
Qed.

Lemma replenished_bucket_allows_witness :
  @ComputeRaw amd64 Int64.min_int (Int64.max_int - Second) 4 10 (10 * Second) 1
  = {| newTAT := Int64.max_int; limited := false; remaining := 3;
       retryIn := 0; resetIn := Second |}.
Proof.
  rewrite (@replenished_bucket_allows amd64 Int64.min_int
             (Int64.max_int - Second) 4 10 (10 * Second) 1).
  - vm_compute. reflexivity.
  - vm_compute. reflexivity.
  - vm_compute. split; discriminate.
  - vm_compute. reflexivity.
  - vm_compute. discriminate.
  - vm_compute. split; discriminate.
Defined.

(** C10 as stated fails: with [burst = 2^53 + 2] and a full bucket the
    difference [2^53 + 1] is not a float64 and the remaining units come out
    as [2^53], one short of [burst - cost]. *)
Lemma replenished_remaining_inexact :
  0 < @roundDiv amd64 1 1 /\ 1 <= 1 <= 2 ^ 53 + 2 /\ 0 <= 0
  /\ @ComputeRaw amd64 0 0 (2 ^ 53 + 2) 1 1 1
     = {| newTAT := 1; limited := false; remaining := 2 ^ 53;
          retryIn := 0; resetIn := 1 |}
  /\ 2 ^ 53 <> 2 ^ 53 + 2 - 1.
Proof. vm_compute. repeat split; discriminate. Qed.

(** When [emissionInterval * burst] overflows, a full bucket even denies an
    affordable request: [4 * 2^62] wraps to 0. *)
Lemma replenished_denied_on_overflow :
  @ComputeRaw amd64 0 0 (2 ^ 62) 1 4 1
  = {| newTAT := 0; limited := true; remaining := 0; retryIn := 4;
       resetIn := 0 |}.
Proof. vm_compute. reflexivity. Qed.

(** When [now + emissionInterval * cost] exceeds the int64 range the request
    of a full bucket is allowed, but the new TAT has wrapped around. *)
Lemma replenished_new_tat_wraps :
  @ComputeRaw amd64 0 Int64.max_int 1 1 1 1
  = {| newTAT := Int64.min_int; limited := false; remaining := 0;
       retryIn := 0; resetIn := 1 |}.
Proof. vm_compute. reflexivity. Qed.

(** * Further properties of the package *)

(** ** Rounded quotients *)

Module RoundFacts.

Lemma nearest_up_add a b c :
  0 < b -> nearest_up (a + b * c) b = nearest_up a b + c.
Proof.
  intros Hb. unfold nearest_up.
  replace (2 * (a + b * c) + b) with (2 * a + b + c * (2 * b)) by ring.
  apply Z.div_add. lia.
Qed.

Lemma nearest_up_0_iff a b : 0 < b -> 0 <= a -> (nearest_up a b = 0 <-> 2 * a < b).
Proof.
  intros Hb Ha. pose proof (nearest_up_bounds a b Hb) as Hk. split.
  - intros H0. rewrite H0 in Hk. lia.
  - intros Hlt. apply nearest_up_unique; lia.
Qed.

Lemma nearest_up_nonneg a b : 0 < b -> 0 <= a -> 0 <= nearest_up a b.
Proof. intros Hb Ha. unfold nearest_up. apply Z.div_pos; lia. Qed.

Lemma round_half_away_nonneg_eq a b :
  0 < b -> 0 <= a -> round_half_away a b = nearest_up a b.
Proof.
  intros Hb Ha. unfold round_half_away.
  destruct (Z.eq_dec a 0) as [->|Hne].
  - change (Z.sgn 0) with 0. change (Z.abs 0) with 0. rewrite Z.mul_0_l.
    symmetry. apply nearest_up_unique; lia.
  - rewrite Z.sgn_pos, Z.abs_eq by lia. lia.
Qed.

Lemma round_half_away_neg_eq a b :
  a < 0 -> round_half_away a b = - nearest_up (- a) b.
Proof.
  intros Ha. unfold round_half_away. rewrite Z.sgn_neg, Z.abs_neq by lia. lia.
Qed.

(** The rounded quotient is negative exactly from half a divisor below
    zero on. *)
Lemma round_half_away_neg_iff a b :
  0 < b -> (round_half_away a b < 0 <-> b <= - 2 * a).
Proof.
  intros Hb. destruct (Z.ltb_spec a 0) as [Hneg|Hpos].
  - rewrite round_half_away_neg_eq by assumption.
    pose proof (nearest_up_0_iff (- a) b Hb ltac:(lia)) as H0.
    pose proof (nearest_up_nonneg (- a) b Hb ltac:(lia)). lia.
  - pose proof (round_half_away_nonneg a b Hb Hpos). lia.
Qed.

Lemma round_half_away_0_iff a b :
  0 < b -> (round_half_away a b = 0 <-> - b < 2 * a < b).
Proof.
  intros Hb. destruct (Z.ltb_spec a 0) as [Hneg|Hpos].
  - rewrite round_half_away_neg_eq by assumption.
    pose proof (nearest_up_0_iff (- a) b Hb ltac:(lia)) as H0. lia.
  - rewrite round_half_away_nonneg_eq by assumption || lia.
    pose proof (nearest_up_0_iff a b Hb Hpos) as H0. lia.
Qed.

(** Adding whole divisors to a dividend whose rounded quotient is not
    negative adds as many units. *)
Lemma round_half_away_add a b c :
  0 < b -> 0 <= c -> 0 <= round_half_away a b ->
  round_half_away (a + b * c) b = round_half_away a b + c.
Proof.
  intros Hb Hc Hr. destruct (Z.ltb_spec a 0) as [Hneg|Hpos].
  - assert (H0 : round_half_away a b = 0).
    { pose proof (round_half_away_neg_eq a b Hneg).
      pose proof (nearest_up_nonneg (- a) b Hb ltac:(lia)). lia. }
    rewrite H0. apply round_half_away_0_iff in H0; [|assumption].
    destruct (Z.eq_dec c 0) as [->|Hc0].
    + rewrite Z.mul_0_r, Z.add_0_r. apply round_half_away_0_iff; lia.
    + rewrite round_half_away_nonneg_eq by nia.
      apply nearest_up_unique; [assumption|]. nia.
  - rewrite !round_half_away_nonneg_eq by nia. now apply nearest_up_add.
Qed.

Lemma round_half_away_le a b n :
  0 < b -> a <= b * n -> round_half_away a b <= n.
Proof.
  intros Hb Ha. destruct (Z.ltb_spec a 0) as [Hneg|Hpos].
  - rewrite round_half_away_neg_eq by assumption.
    pose proof (nearest_up_nonneg (- a) b Hb ltac:(lia)).
    destruct (Z.ltb_spec n 0) as [Hn|Hn]; [|lia].
    pose proof (nearest_up_bounds (- a) b Hb). nia.
  - rewrite round_half_away_nonneg_eq by assumption || lia.
    pose proof (nearest_up_bounds a b Hb). nia.
Qed.

Lemma round_half_away_ge a b n :
  0 < b -> b * n <= a -> n <= round_half_away a b.
Proof.
  intros Hb Ha. destruct (Z.ltb_spec a 0) as [Hneg|Hpos].
  - rewrite round_half_away_neg_eq by assumption.
    pose proof (nearest_up_bounds (- a) b Hb). nia.
  - rewrite round_half_away_nonneg_eq by assumption || lia.
    pose proof (nearest_up_bounds a b Hb). nia.
Qed.

End RoundFacts.

Import RoundFacts.

(** ** The outcomes of a raw call *)

Lemma ComputeExact_credit ei tat now burst cost :
  ComputeExact ei tat now burst cost
  = let y := credit ei tat now burst in
    let T := Z.max tat now in
    if round_half_away (y - ei * cost) ei <? 0 then
      Build_RawResult T true (round_half_away y ei) (ei * cost - y) (T - now)
    else if (round_half_away (y - ei * cost) ei =? 0) && (ei * cost <=? 0) then
      Build_RawResult T true 0 0 (T - now)
    else
      Build_RawResult (T + ei * cost) false
        (round_half_away (y - ei * cost) ei) 0 (T + ei * cost - now).
Proof.
  unfold ComputeExact, credit. cbv zeta.
  replace (now - (Z.max tat now + ei * cost - ei * burst))
    with (now - (Z.max tat now - ei * burst) - ei * cost) by lia.
  replace ((now - (Z.max tat now - ei * burst) - ei * cost) * -1)
    with (ei * cost - (now - (Z.max tat now - ei * burst))) by lia.
  reflexivity.
Qed.

(** The three outcomes of [ComputeRaw] in the normal range, by the credit
    [y] of the bucket and the increment [ei * cost]. *)
Lemma ComputeRaw_cases `{GoArch} tat now burst rate period cost :
  let ei := roundDiv period rate in
  normal_range ei tat now burst cost ->
  let y := credit ei tat now burst in
  let T := Z.max tat now in
  let r := ComputeRaw tat now burst rate period cost in
  (ei <= 2 * (ei * cost - y)
   /\ r = Build_RawResult T true (round_half_away y ei) (ei * cost - y) (T - now))
  \/ (cost = 0 /\ - ei < 2 * y < ei
      /\ r = Build_RawResult T true 0 0 (T - now))
  \/ (2 * (ei * cost - y) < ei /\ (0 < cost \/ ei <= 2 * y)
      /\ r = Build_RawResult (T + ei * cost) false
               (round_half_away (y - ei * cost) ei) 0 (T + ei * cost - now)).
Proof.
  intros ei Hn y T r. unfold r. rewrite ComputeRaw_normal by assumption.
  fold ei. rewrite ComputeExact_credit. fold y T. cbv zeta.
  destruct Hn as (Hei & Hb & Hc & _).
  pose proof (round_half_away_neg_iff (y - ei * cost) ei Hei) as Hneg.
  pose proof (round_half_away_0_iff (y - ei * cost) ei Hei) as Hzero.
  destruct (Z.ltb_spec (round_half_away (y - ei * cost) ei) 0) as [Hlt|Hge].
  - left. split; [lia|reflexivity].
  - destruct (Z.eqb_spec (round_half_away (y - ei * cost) ei) 0) as [H0|H0];
      destruct (Z.leb_spec (ei * cost) 0) as [Hinc|Hinc]; cbn [andb].
    + right; left. assert (cost = 0) by nia. subst cost.
      rewrite Z.mul_0_r in *. split; [reflexivity|]. split; [lia|reflexivity].
    + right; right. split; [lia|]. split; [left; nia|reflexivity].
    + right; right. split; [lia|]. split; [|reflexivity].
      assert (cost = 0) by nia. subst cost. rewrite Z.mul_0_r in *. right. lia.
    + right; right. split; [lia|]. split; [left; nia|reflexivity].
Qed.

(** Discharge a closed arithmetic side condition by evaluation. *)
Ltac by_eval :=
  vm_compute;
  repeat match goal with |- _ /\ _ => split end;
  first [reflexivity | discriminate].

(** X1: [MustGenerate] and [MustCompute] panic exactly on the parameters
    that [Generate] and [Compute] reject, and return their results
    otherwise. *)
Theorem must_panics_iff_invalid `{GoArch} now bucket n opts :
  (MustGenerate now n opts = None <-> ~ valid n opts)
  /\ (MustCompute now bucket n opts = None <-> ~ valid n opts)
  /\ (forall b, MustGenerate now n opts = Some b <->
                Generate now n opts = (b, None))
  /\ (forall b r, MustCompute now bucket n opts = Some (b, r) <->
                  Compute now bucket n opts = (b, r, None)).
Proof.
  pose proof (check_invalid n opts) as Hchk.
  unfold MustGenerate, MustCompute, Generate, Compute, valid.
  destruct ((n <? 0) || (Burst opts <=? 0) || (Rate opts <=? 0)
            || (Period opts <=? 0)) eqn:Hinv.
  - assert (Hi : n < 0 \/ Burst opts <= 0 \/ Rate opts <= 0 \/ Period opts <= 0)
      by (apply Hchk; reflexivity).
    repeat split; intros; try discriminate; try congruence; try lia.
  - assert (Hi : ~ (n < 0 \/ Burst opts <= 0 \/ Rate opts <= 0
                    \/ Period opts <= 0))
      by (intros Hi; apply Hchk in Hi; discriminate).
    rewrite Z.gtb_ltb.
    destruct (Z.ltb_spec (Burst opts) n) as [Hgt|Hle];
      repeat split; intros; cbv beta iota zeta in *; try discriminate;
      try congruence; try lia;
      try (match goal with Hs : Some _ = Some _ |- _ =>
             inversion Hs; reflexivity end);
      try (match goal with Hs : (_, _) = (_, _) |- _ =>
             inversion Hs; reflexivity end);
      exfalso; match goal with Hv : ~ _ |- _ => apply Hv; lia end.
Qed.

(** ** Buckets *)

Lemma normal_range_in_range ei tat now burst cost :
  normal_range ei tat now burst cost ->
  Int64.in_range tat /\ Int64.in_range now.
Proof.
  intros (_ & _ & _ & _ & Hnow & Htat).
  unfold Int64.in_range, Int64.min_int, Int64.max_int in *. lia.
Qed.

(** X2: every TAT that is not after [now] gives the same outcome: time a
    bucket has spent full earns no credit beyond [burst]. *)
Theorem stale_tat_is_full `{GoArch} tat1 tat2 now burst rate period cost :
  tat1 <= now -> tat2 <= now ->
  ComputeRaw tat1 now burst rate period cost
  = ComputeRaw tat2 now burst rate period cost.
Proof.
  intros H1 H2.
  rewrite <- (ComputeRaw_clamped tat1), <- (ComputeRaw_clamped tat2).
  now rewrite (Z.max_r tat1 now), (Z.max_r tat2 now) by assumption.
Qed.

Lemma stale_tat_is_full_witness :
  @ComputeRaw amd64 0 testNow 4 10 (10 * Second) 1
  = @ComputeRaw amd64 (testNow - Second) testNow 4 10 (10 * Second) 1.
Proof.
  apply (@stale_tat_is_full amd64 0 (testNow - Second) testNow); by_eval.
Defined.

(** X3: the zero value [Bucket{}] is a full bucket at every instant from the
    Unix epoch on: in the normal range [Compute] allows any cost up to
    [Burst] on it and reports [Burst - cost] remaining units. *)
Theorem zero_bucket_is_full `{GoArch} now cost opts :
  let ei := roundDiv (Period opts) (Rate opts) in
  valid cost opts -> 0 < ei -> ei * Burst opts <= 2 ^ 52 ->
  0 <= now <= Int64.max_int - 2 ^ 53 ->
  Compute now zeroBucket cost opts
  = (now + ei * cost,
     {| Limited := false; Remaining := Burst opts - cost; RetryIn := 0;
        ResetIn := ei * cost |}, None).
Proof.
  intros ei Hv Hei Hbo Hnow. rewrite Compute_valid by assumption. cbv zeta.
  destruct Hv as (Hc & Hb & _).
  assert (Hn : UnixNano now = now).
  { apply Int64Facts.wrap_small.
    unfold Int64.in_range, Int64.min_int, Int64.max_int in *. lia. }
  assert (Hz : Int64.min_int <= UnixNano zeroBucket <= 0) by by_eval.
  rewrite Hn.
  rewrite ComputeRaw_replenished;
    fold ei; unfold Int64.min_int, Int64.max_int in *; try lia.
  reflexivity.
Qed.

Lemma zero_bucket_is_full_witness :
  @Compute amd64 testNow zeroBucket 1 testOpts
  = (testNow + Second,
     {| Limited := false; Remaining := 3; RetryIn := 0; ResetIn := Second |},
     None).
Proof.
  rewrite (@zero_bucket_is_full amd64 testNow 1 testOpts).
  - vm_compute. reflexivity.
  - unfold valid, testOpts, Second; simpl; lia.
  - by_eval.
  - by_eval.
  - by_eval.
Defined.

(** X4: [Generate] creates a bucket that contains [count] units: in the
    normal range a zero-cost [Compute] at the same instant leaves the bucket
    as it is and reports [Remaining = count], limited exactly when the bucket
    is empty, and [ResetIn = emissionInterval * (Burst - count)]. *)
Theorem generate_then_query `{GoArch} now count opts :
  let ei := roundDiv (Period opts) (Rate opts) in
  valid count opts -> 0 < ei -> ei * Burst opts <= 2 ^ 52 ->
  Int64.min_int + 2 ^ 52 <= now <= Int64.max_int - 2 ^ 53 ->
  exists bucket,
    Generate now count opts = (bucket, None)
    /\ Compute now bucket 0 opts
       = (bucket,
          {| Limited := (count =? 0); Remaining := count; RetryIn := 0;
             ResetIn := ei * (Burst opts - count) |}, None).
Proof.
  intros ei Hv Hei Hbo Hnow. pose proof Hv as (Hc & Hb & Hr & Hp).
  assert (Hv0 : valid 0 opts) by (unfold valid; lia).
  rewrite Generate_valid, GenerateRaw_wrap by assumption. fold ei.
  assert (Hn : UnixNano now = now).
  { apply Int64Facts.wrap_small.
    unfold Int64.in_range, Int64.min_int, Int64.max_int in *. lia. }
  assert (Hcnt : 0 <= ei * (Burst opts - count) <= ei * Burst opts) by nia.
  rewrite Hn. set (tat := now + ei * (Burst opts - count)).
  assert (Htat : Int64.wrap tat = tat).
  { apply Int64Facts.wrap_small.
    unfold tat, Int64.in_range, Int64.min_int, Int64.max_int in *. lia. }
  rewrite Htat. exists tat. split; [reflexivity|].
  rewrite Compute_valid by assumption. cbv zeta.
  fold (UnixNano tat) in Htat. rewrite !Htat, Hn.
  assert (Hnr : normal_range ei tat now (Burst opts) 0).
  { unfold normal_range, tat, Int64.min_int, Int64.max_int in *.
    repeat split; lia. }
  pose proof (ComputeRaw_cases tat now (Burst opts) (Rate opts) (Period opts) 0
                Hnr) as Hcases.
  cbv zeta in Hcases. fold ei in Hcases.
  assert (Hy : credit ei tat now (Burst opts) = ei * count).
  { unfold credit, tat. lia. }
  assert (HT : Z.max tat now = tat) by (unfold tat; lia).
  rewrite Hy, HT, Z.mul_0_r, Z.sub_0_r, Z.add_0_r in Hcases.
  destruct Hcases as [(Hlt & _)|[(_ & Hz & Hres)|(_ & Hpos & Hres)]].
  - nia.
  - assert (Hc0 : count = 0) by nia. rewrite Hres. unfold toResult.
    cbn [newTAT limited remaining retryIn resetIn]. unfold Unix0.
    replace (count =? 0) with true by (symmetry; apply Z.eqb_eq; lia).
    apply outcome_eq; unfold tat; lia.
  - assert (0 < count) by nia. rewrite Hres. unfold toResult.
    cbn [newTAT limited remaining retryIn resetIn]. unfold Unix0.
    rewrite round_half_away_mul by assumption.
    replace (count =? 0) with false by (symmetry; apply Z.eqb_neq; lia).
    apply outcome_eq; unfold tat; lia.
Qed.

Lemma generate_then_query_witness :
  exists bucket,
    @Generate amd64 testNow 3 testOpts = (bucket, None)
    /\ Remaining (snd (fst (@Compute amd64 testNow bucket 0 testOpts))) = 3.
Proof.
  destruct (@generate_then_query amd64 testNow 3 testOpts)
    as (bucket & Hg & Hc).
  - unfold valid, testOpts, Second; simpl; lia.
  - by_eval.
  - by_eval.
  - by_eval.
  - exists bucket. split; [exact Hg|]. rewrite Hc. reflexivity.
Defined.

(** X5: seeding is consuming: [Generate now count] returns the bucket that
    [Compute] returns when [Burst - count] units are taken at [now] from a
    bucket that is full at [now], and that call reports [count] remaining
    units. *)
Theorem generate_is_consume_from_full `{GoArch} (now : Time) count opts :
  let ei := roundDiv (Period opts) (Rate opts) in
  valid count opts -> 0 < ei -> ei * Burst opts <= 2 ^ 52 ->
  Int64.min_int + 2 ^ 52 <= now <= Int64.max_int - 2 ^ 53 ->
  exists bucket,
    Generate now count opts = (bucket, None)
    /\ Compute now now (Burst opts - count) opts
       = (bucket,
          {| Limited := false; Remaining := count; RetryIn := 0;
             ResetIn := ei * (Burst opts - count) |}, None).
Proof.
  intros ei Hv Hei Hbo Hnow. pose proof Hv as (Hc & Hb & Hr & Hp).
  assert (Hv' : valid (Burst opts - count) opts) by (unfold valid; lia).
  rewrite Generate_valid, GenerateRaw_wrap by assumption. fold ei.
  assert (Hn : UnixNano now = now).
  { apply Int64Facts.wrap_small.
    unfold Int64.in_range, Int64.min_int, Int64.max_int in *. lia. }
  assert (Hcnt : 0 <= ei * (Burst opts - count) <= ei * Burst opts) by nia.
  rewrite Hn. set (tat := now + ei * (Burst opts - count)).
  assert (Htat : Int64.wrap tat = tat).
  { apply Int64Facts.wrap_small.
    unfold tat, Int64.in_range, Int64.min_int, Int64.max_int in *. lia. }
  rewrite Htat. exists tat. split; [reflexivity|].
  rewrite Compute_valid by assumption. cbv zeta. rewrite Hn.
  rewrite ComputeRaw_replenished;
    fold ei; unfold Int64.min_int, Int64.max_int in *; try lia.
  unfold toResult. cbn [newTAT limited remaining retryIn resetIn]. unfold Unix0.
  apply outcome_eq; unfold tat; lia.
Qed.

Lemma generate_is_consume_from_full_witness :
  fst (@Generate amd64 testNow 3 testOpts)
  = fst (fst (@Compute amd64 testNow testNow 1 testOpts)).
Proof.
  destruct (@generate_is_consume_from_full amd64 testNow 3 testOpts)
    as (bucket & Hg & Hc).
  - unfold valid, testOpts, Second; simpl; lia.
  - by_eval.
  - by_eval.
  - by_eval.
  - rewrite Hg. change (Burst testOpts - 3) with 1 in Hc. rewrite Hc.
    reflexivity.
Defined.

(** ** Decisions and promises *)

Lemma testOpts_normal tat now cost :
  0 <= cost <= 4 ->
  Int64.min_int + 2 ^ 52 <= now <= Int64.max_int - 2 ^ 53 ->
  Int64.min_int <= tat <= now + 2 ^ 52 ->
  normal_range (@roundDiv amd64 (10 * Second) 10) tat now 4 cost.
Proof.
  intros Hc Hnow Htat.
  assert (Hei : @roundDiv amd64 (10 * Second) 10 = 10 ^ 9)
    by (vm_compute; reflexivity).
  rewrite Hei. unfold normal_range. repeat split; lia.
Qed.

(** X6: in the normal range a request with positive cost is denied exactly
    when the TAT it would leave lies half an emission interval or more
    beyond [now + emissionInterval * burst], and a zero-cost query is
    reported limited exactly when less than half a unit is left. *)
Theorem denied_iff_too_early `{GoArch} tat now burst rate period cost :
  let ei := roundDiv period rate in
  normal_range ei tat now burst cost ->
  limited (ComputeRaw tat now burst rate period cost) = true
  <-> ei <= 2 * (Z.max tat now + ei * cost - (now + ei * burst))
      \/ (cost = 0 /\ 2 * (now + ei * burst - Z.max tat now) < ei).
Proof.
  intros ei Hn.
  pose proof (ComputeRaw_cases tat now burst rate period cost Hn) as Hcases.
  cbv zeta in Hcases. fold ei in Hcases. unfold credit in Hcases.
  destruct Hcases as [(Hlt & ->)|[(-> & Hz & ->)|(Hlt & Hpos & ->)]];
    cbn [limited]; split; intros; try reflexivity; try discriminate; lia.
Qed.

Lemma denied_iff_too_early_witness :
  limited (@ComputeRaw amd64 (testNow + 4 * Second) testNow 4 10
             (10 * Second) 1) = true.
Proof.
  apply (@denied_iff_too_early amd64 (testNow + 4 * Second) testNow 4 10
           (10 * Second) 1).
  - apply testOpts_normal; by_eval.
  - left. by_eval.
Defined.

(** X7: [retryIn] keeps its promise: in the normal range a denied request
    with positive cost reports a positive [retryIn], and the same request on
    the returned TAT at any instant from [now + retryIn] on is allowed. *)
Theorem retry_after_retryIn `{GoArch} tat now now' burst rate period cost :
  let ei := roundDiv period rate in
  let r := ComputeRaw tat now burst rate period cost in
  normal_range ei tat now burst cost -> 0 < cost ->
  limited r = true ->
  now + retryIn r <= now' <= Int64.max_int - 2 ^ 53 ->
  0 < retryIn r
  /\ limited (ComputeRaw (newTAT r) now' burst rate period cost) = false.
Proof.
  intros ei r Hn Hc Hlim Hnow'.
  pose proof (ComputeRaw_cases tat now burst rate period cost Hn) as Hcases.
  cbv zeta in Hcases. fold ei r in Hcases.
  pose proof Hn as (Hei & Hb & Hcb & Hbo & Hnow & Htat).
  assert (Hinc : 0 <= ei * cost <= ei * burst) by nia.
  unfold credit in Hcases.
  destruct Hcases as [(Hlt & Hr)|[(Hc0 & _)|(_ & _ & Hr)]];
    [|lia|rewrite Hr in Hlim; discriminate].
  rewrite Hr in *. cbn [retryIn newTAT] in *. split; [lia|].
  set (T := Z.max tat now) in *.
  assert (Hn' : normal_range ei T now' burst cost).
  { unfold normal_range, T, Int64.min_int, Int64.max_int in *.
    repeat split; lia. }
  pose proof (ComputeRaw_cases T now' burst rate period cost Hn') as Hcases'.
  cbv zeta in Hcases'. fold ei in Hcases'. unfold credit in Hcases'.
  destruct Hcases' as [(Hlt' & _)|[(Hc0 & _)|(_ & _ & ->)]];
    [exfalso; unfold T in *; lia | lia | reflexivity].
Qed.

Lemma retry_after_retryIn_witness :
  limited (@ComputeRaw amd64 (testNow + 4 * Second) (testNow + Second) 4 10
             (10 * Second) 1) = false.
Proof.
  assert (Hn : normal_range (@roundDiv amd64 (10 * Second) 10)
                 (testNow + 4 * Second) testNow 4 1)
    by (apply testOpts_normal; by_eval).
  assert (Hlim : limited (@ComputeRaw amd64 (testNow + 4 * Second) testNow 4 10
                            (10 * Second) 1) = true)
    by (vm_compute; reflexivity).
  refine (proj2 (@retry_after_retryIn amd64 (testNow + 4 * Second) testNow
                   (testNow + Second) 4 10 (10 * Second) 1 Hn _ Hlim _));
    by_eval.
Defined.

(** X8: [resetIn] keeps its promise: in the normal range every call reports
    [resetIn = newTAT - now >= 0], and on the returned TAT any request of at
    most [burst] units made [resetIn] or more after [now] finds the bucket
    full. *)
Theorem full_after_resetIn `{GoArch} tat now now' burst rate period cost c :
  let ei := roundDiv period rate in
  let r := ComputeRaw tat now burst rate period cost in
  normal_range ei tat now burst cost ->
  now + resetIn r <= now' <= Int64.max_int - 2 ^ 53 -> 0 <= c <= burst ->
  0 <= resetIn r /\ now + resetIn r = newTAT r
  /\ ComputeRaw (newTAT r) now' burst rate period c
     = {| newTAT := now' + ei * c; limited := false; remaining := burst - c;
          retryIn := 0; resetIn := ei * c |}.
Proof.
  intros ei r Hn Hnow' Hc.
  pose proof (ComputeRaw_cases tat now burst rate period cost Hn) as Hcases.
  cbv zeta in Hcases. fold ei r in Hcases.
  pose proof Hn as (Hei & Hb & Hcb & Hbo & Hnow & Htat).
  assert (Hinc : 0 <= ei * cost <= ei * burst) by nia.
  assert (Hres : 0 <= resetIn r /\ now + resetIn r = newTAT r
                 /\ Int64.min_int <= newTAT r).
  { unfold Int64.min_int, Int64.max_int in *.
    destruct Hcases as [(_ & ->)|[(_ & _ & ->)|(_ & _ & ->)]];
      cbn [resetIn newTAT]; lia. }
  destruct Hres as (Hr0 & Hrn & Hmin).
  split; [assumption|]. split; [assumption|].
  apply ComputeRaw_replenished; fold ei;
    unfold Int64.min_int, Int64.max_int in *; lia.
Qed.

Lemma full_after_resetIn_witness :
  @ComputeRaw amd64 (testNow + 2 * Second) (testNow + 2 * Second) 4 10
     (10 * Second) 4
  = {| newTAT := testNow + 6 * Second; limited := false; remaining := 0;
       retryIn := 0; resetIn := 4 * Second |}.
Proof.
  assert (Hn : normal_range (@roundDiv amd64 (10 * Second) 10)
                 (testNow + Second) testNow 4 1)
    by (apply testOpts_normal; by_eval).
  refine (proj2 (proj2 (@full_after_resetIn amd64 (testNow + Second) testNow
                          (testNow + 2 * Second) 4 10 (10 * Second) 1 4
                          Hn _ _))); by_eval.
Defined.

Lemma query_remaining `{GoArch} tat now burst rate period :
  let ei := roundDiv period rate in
  normal_range ei tat now burst 0 ->
  remaining (ComputeRaw tat now burst rate period 0)
  = round_half_away (credit ei tat now burst) ei.
Proof.
  intros ei Hn.
  pose proof (ComputeRaw_cases tat now burst rate period 0 Hn) as Hcases.
  cbv zeta in Hcases. fold ei in Hcases.
  destruct Hn as (Hei & _).
  rewrite Z.mul_0_r, Z.sub_0_r in Hcases.
  destruct Hcases as [(_ & ->)|[(_ & Hz & ->)|(_ & _ & ->)]];
    cbn [remaining]; try reflexivity.
  symmetry. apply round_half_away_0_iff; lia.
Qed.

(** X9: the units are accounted for: in the normal range the [remaining] a
    call reports is what a zero-cost query on the same TAT at the same [now]
    reports, less [cost] when the call is allowed and unchanged when it is
    denied. *)
Theorem remaining_accounts_for_cost `{GoArch} tat now burst rate period cost :
  let ei := roundDiv period rate in
  let r := ComputeRaw tat now burst rate period cost in
  normal_range ei tat now burst cost ->
  remaining r
  = remaining (ComputeRaw tat now burst rate period 0)
    - (if limited r then 0 else cost).
Proof.
  intros ei r Hn.
  pose proof Hn as (Hei & Hb & Hcb & Hbo & Hnow & Htat).
  assert (Hn0 : normal_range ei tat now burst 0)
    by (unfold normal_range; repeat split; lia).
  rewrite (query_remaining tat now burst rate period Hn0). fold ei.
  pose proof (ComputeRaw_cases tat now burst rate period cost Hn) as Hcases.
  cbv zeta in Hcases. fold ei r in Hcases.
  set (y := credit ei tat now burst) in *.
  destruct Hcases as [(_ & ->)|[(_ & Hz & ->)|(Hlt & _ & ->)]];
    cbn [remaining limited].
  - lia.
  - assert (round_half_away y ei = 0) by (apply round_half_away_0_iff; lia).
    lia.
  - assert (Hnn : 0 <= round_half_away (y - ei * cost) ei).
    { destruct (Z.ltb_spec (round_half_away (y - ei * cost) ei) 0) as [Hneg|];
        [|assumption].
      apply round_half_away_neg_iff in Hneg; lia. }
    pose proof (round_half_away_add (y - ei * cost) ei cost Hei ltac:(lia) Hnn)
      as Hadd.
    replace (y - ei * cost + ei * cost) with y in Hadd by lia. lia.
Qed.

Lemma remaining_accounts_for_cost_witness :
  remaining (@ComputeRaw amd64 (testNow + Second) testNow 4 10 (10 * Second) 2)
  = remaining (@ComputeRaw amd64 (testNow + Second) testNow 4 10
                 (10 * Second) 0) - 2.
Proof.
  rewrite (@remaining_accounts_for_cost amd64 (testNow + Second) testNow 4 10
             (10 * Second) 2).
  - vm_compute. reflexivity.
  - apply testOpts_normal; by_eval.
Defined.

(** X10: units come back one per emission interval up to [burst]: in the
    normal range, when a zero-cost query reports a non-negative [remaining],
    the query [k] emission intervals later reports [k] more, capped at
    [burst]. *)
Theorem units_regenerate `{GoArch} tat now burst rate period k :
  let ei := roundDiv period rate in
  normal_range ei tat now burst 0 -> 0 <= k ->
  now + ei * k <= Int64.max_int - 2 ^ 53 ->
  0 <= remaining (ComputeRaw tat now burst rate period 0) ->
  remaining (ComputeRaw tat (now + ei * k) burst rate period 0)
  = Z.min burst (remaining (ComputeRaw tat now burst rate period 0) + k).
Proof.
  intros ei Hn Hk Hnow' Hq.
  pose proof Hn as (Hei & Hb & Hcb & Hbo & Hnow & Htat).
  assert (Hek : 0 <= ei * k) by nia.
  assert (Hn' : normal_range ei tat (now + ei * k) burst 0).
  { unfold normal_range, Int64.min_int, Int64.max_int in *.
    repeat split; lia. }
  rewrite (query_remaining tat now burst rate period Hn) in Hq |- *.
  rewrite (query_remaining tat (now + ei * k) burst rate period Hn').
  fold ei in Hq |- *. unfold credit in Hq |- *.
  set (y := now - (Z.max tat now - ei * burst)) in *.
  assert (Hyb : round_half_away y ei <= burst)
    by (apply round_half_away_le; unfold y; lia).
  pose proof (round_half_away_add y ei k Hei Hk Hq) as Hadd.
  destruct (Z.leb_spec (now + ei * k) tat) as [Hle|Hgt].
  - replace (now + ei * k - (Z.max tat (now + ei * k) - ei * burst))
      with (y + ei * k) by (unfold y; lia).
    rewrite Hadd.
    assert (round_half_away (y + ei * k) ei <= burst)
      by (apply round_half_away_le; unfold y; lia).
    lia.
  - replace (now + ei * k - (Z.max tat (now + ei * k) - ei * burst))
      with (ei * burst) by lia.
    rewrite round_half_away_mul by assumption.
    assert (burst <= round_half_away (y + ei * k) ei)
      by (apply round_half_away_ge; unfold y; lia).
    lia.
Qed.

Lemma units_regenerate_witness :
  remaining (@ComputeRaw amd64 (testNow + 4 * Second) (testNow + 3 * Second)
               4 10 (10 * Second) 0) = 3.
Proof.
  change (testNow + 3 * Second)
    with (testNow + @roundDiv amd64 (10 * Second) 10 * 3).
  rewrite (@units_regenerate amd64 (testNow + 4 * Second) testNow 4 10
             (10 * Second) 3).
  - vm_compute. reflexivity.
  - apply testOpts_normal; by_eval.
  - by_eval.
  - by_eval.
  - by_eval.
Defined.

(** X11: only distances in time matter: in the normal range shifting the
    TAT and [now] by the same amount shifts the returned TAT by that amount
    and leaves the decision and the reported values as they are. *)
Theorem time_shift_invariant `{GoArch} tat now s burst rate period cost :
  let ei := roundDiv period rate in
  let r := ComputeRaw tat now burst rate period cost in
  normal_range ei tat now burst cost ->
  normal_range ei (tat + s) (now + s) burst cost ->
  ComputeRaw (tat + s) (now + s) burst rate period cost
  = {| newTAT := newTAT r + s; limited := limited r;
       remaining := remaining r; retryIn := retryIn r;
       resetIn := resetIn r |}.
Proof.
  intros ei r Hn Hs. unfold r.
  rewrite !ComputeRaw_normal by assumption. fold ei.
  rewrite !ComputeExact_credit. cbv zeta.
  assert (Hm : Z.max (tat + s) (now + s) = Z.max tat now + s) by lia.
  assert (Hy : credit ei (tat + s) (now + s) burst = credit ei tat now burst)
    by (unfold credit; lia).
  rewrite Hm, Hy.
  destruct (_ <? 0); [cbn [newTAT limited remaining retryIn resetIn];
                      f_equal; lia|].
  destruct (_ && _); cbn [newTAT limited remaining retryIn resetIn];
    f_equal; lia.
Qed.

Lemma time_shift_invariant_witness :
  remaining (@ComputeRaw amd64 (testNow + 3 * Second) (testNow + Second) 4 10
               (10 * Second) 1)
  = remaining (@ComputeRaw amd64 (testNow + 2 * Second) testNow 4 10
                 (10 * Second) 1).
Proof.
  change (testNow + 3 * Second) with (testNow + 2 * Second + Second).
  rewrite (@time_shift_invariant amd64 (testNow + 2 * Second) testNow Second
             4 10 (10 * Second) 1).
  - reflexivity.
  - apply testOpts_normal; by_eval.
  - apply testOpts_normal; by_eval.
Defined.

(** X12: a request can be split: in the normal range with
    [emissionInterval * burst <= 2^51], when a request of [c1 + c2] units is
    allowed, so are a request of [c1] units and then one of [c2] units on
    the returned TAT at the same [now], and the second call returns what the
    single request returns. *)
Theorem split_request `{GoArch} tat now burst rate period c1 c2 :
  let ei := roundDiv period rate in
  let r12 := ComputeRaw tat now burst rate period (c1 + c2) in
  let r1 := ComputeRaw tat now burst rate period c1 in
  normal_range ei tat now burst (c1 + c2) -> ei * burst <= 2 ^ 51 ->
  0 < c1 -> 0 < c2 -> limited r12 = false ->
  limited r1 = false
  /\ ComputeRaw (newTAT r1) now burst rate period c2 = r12.
Proof.
  intros ei r12 r1 Hn Hbo' Hc1 Hc2 Hlim.
  pose proof Hn as (Hei & Hb & Hcb & Hbo & Hnow & Htat).
  assert (Hn1 : normal_range ei tat now burst c1)
    by (unfold normal_range; repeat split; lia).
  pose proof (ComputeRaw_cases tat now burst rate period (c1 + c2) Hn) as H12.
  pose proof (ComputeRaw_cases tat now burst rate period c1 Hn1) as H1.
  cbv zeta in H12, H1. fold ei r12 in H12. fold ei r1 in H1.
  set (y := credit ei tat now burst) in *. set (T := Z.max tat now) in *.
  assert (He1 : 0 < ei * c1) by nia. assert (He2 : 0 < ei * c2) by nia.
  assert (He12 : ei * (c1 + c2) = ei * c1 + ei * c2) by ring.
  assert (Hebo : ei * (c1 + c2) <= ei * burst) by nia.
  destruct H12 as [(_ & Hr)|[(_ & _ & Hr)|(Hlt & _ & Hr12)]];
    [rewrite Hr in Hlim; discriminate .. |].
  destruct H1 as [(Hlt1 & _)|[(Hc0 & _)|(Hlt1 & _ & Hr1)]]; [lia | lia |].
  assert (Heb : ei <= ei * burst) by nia.
  rewrite Hr1. cbn [limited newTAT]. split; [reflexivity|].
  assert (HT : now <= T <= now + 2 ^ 52) by (unfold T; lia).
  assert (Hyeq : y = now - (T - ei * burst)) by reflexivity.
  assert (Hn2 : normal_range ei (T + ei * c1) now burst c2).
  { unfold normal_range, Int64.min_int, Int64.max_int in *.
    repeat split; lia. }
  pose proof (ComputeRaw_cases (T + ei * c1) now burst rate period c2 Hn2)
    as H2.
  cbv zeta in H2. fold ei in H2.
  assert (Hy2 : credit ei (T + ei * c1) now burst = y - ei * c1)
    by (unfold credit; lia).
  assert (HT2 : Z.max (T + ei * c1) now = T + ei * c1) by lia.
  rewrite Hy2, HT2 in H2.
  destruct H2 as [(Hlt2 & _)|[(Hc0 & _)|(_ & _ & Hr2)]]; [lia | lia |].
  rewrite Hr2, Hr12. rewrite He12.
  replace (y - ei * c1 - ei * c2) with (y - (ei * c1 + ei * c2)) by lia.
  f_equal; lia.
Qed.

Lemma split_request_witness :
  @ComputeRaw amd64 (testNow + Second) testNow 4 10 (10 * Second) 2
  = @ComputeRaw amd64 testNow testNow 4 10 (10 * Second) (1 + 2).
Proof.
  assert (Hn : normal_range (@roundDiv amd64 (10 * Second) 10)
                 testNow testNow 4 (1 + 2))
    by (apply testOpts_normal; by_eval).
  refine (proj2 (@split_request amd64 testNow testNow 4 10 (10 * Second) 1 2
                   Hn _ _ _ _)); by_eval.
Defined.

(** X13: buckets stay in credit: in the normal range [GenerateRaw] returns
    a TAT that is not overdrawn at [now], and [ComputeRaw] on a TAT that is
    not overdrawn by half an emission interval at [now] returns one that is
    not either, at [now] and at every later instant, with
    [0 <= remaining <= burst], [0 <= retryIn] and [0 <= resetIn]. *)
Theorem buckets_stay_in_credit `{GoArch} tat now count burst rate period cost :
  let ei := roundDiv period rate in
  let r := ComputeRaw tat now burst rate period cost in
  normal_range ei tat now burst cost -> 0 <= count <= burst ->
  inCredit ei (GenerateRaw now count burst rate period) now burst
  /\ (inCredit ei tat now burst ->
      0 <= remaining r <= burst /\ 0 <= retryIn r /\ 0 <= resetIn r
      /\ forall now', now <= now' -> inCredit ei (newTAT r) now' burst).
Proof.
  intros ei r Hn Hcount.
  pose proof Hn as (Hei & Hb & Hcb & Hbo & Hnow & Htat).
  assert (Hinc : 0 <= ei * cost <= ei * burst) by nia.
  split.
  - rewrite GenerateRaw_wrap. fold ei.
    assert (0 <= ei * (burst - count) <= ei * burst) by nia.
    rewrite Int64Facts.wrap_small
      by (unfold Int64.in_range, Int64.min_int, Int64.max_int in *; lia).
    unfold inCredit. lia.
  - intros Hin. unfold inCredit in *.
    pose proof (ComputeRaw_cases tat now burst rate period cost Hn) as Hcases.
    cbv zeta in Hcases. fold ei r in Hcases. unfold credit in Hcases.
    set (y := now - (Z.max tat now - ei * burst)) in *.
    assert (Hy : - ei < 2 * y /\ y <= ei * burst) by (unfold y; lia).
    assert (Hry : 0 <= round_half_away y ei <= burst).
    { split; [|apply round_half_away_le; lia].
      destruct (Z.ltb_spec (round_half_away y ei) 0) as [Hneg|]; [|assumption].
      apply round_half_away_neg_iff in Hneg; lia. }
    destruct Hcases as [(Hlt & ->)|[(_ & Hz & ->)|(Hlt & _ & ->)]];
      cbn [remaining retryIn resetIn newTAT].
    + repeat split; try lia; intros now' Hle; unfold y in *; lia.
    + repeat split; try lia; intros now' Hle; unfold y in *; lia.
    + assert (Hrr : 0 <= round_half_away (y - ei * cost) ei <= burst).
      { split; [|apply round_half_away_le; lia].
        destruct (Z.ltb_spec (round_half_away (y - ei * cost) ei) 0)
          as [Hneg|]; [|assumption].
        apply round_half_away_neg_iff in Hneg; lia. }
      repeat split; try lia; intros now' Hle; unfold y in *; lia.
Qed.

Lemma buckets_stay_in_credit_witness :
  0 <= remaining (@ComputeRaw amd64 (testNow + 4 * Second) testNow 4 10
                    (10 * Second) 1) <= 4.
Proof.
  assert (Hn : normal_range (@roundDiv amd64 (10 * Second) 10)
                 (testNow + 4 * Second) testNow 4 1)
    by (apply testOpts_normal; by_eval).
  refine (proj1 (proj2 (@buckets_stay_in_credit amd64 (testNow + 4 * Second)
                          testNow 0 4 10 (10 * Second) 1 Hn _) _)); by_eval.
Defined.

(** ** [roundDiv] beyond the exact range *)

(** Whatever the dividend, the second rounding never undoes the first by
    more than one unit, and never towards zero. *)
Lemma double_rounding_bound a b t :
  0 < a < 2 ^ 53 -> 0 < b -> 0 <= t -> 2 ^ 52 * b <= a * 2 ^ t ->
  nearest_up a b <= nearest_up (nearest_even (a * 2 ^ t) b) (2 ^ t)
  <= nearest_up a b + 1.
Proof.
  intros Ha Hb Ht Hnorm.
  pose proof (nearest_up_bounds a b Hb) as Hk. set (k := nearest_up a b) in *.
  pose proof (nearest_even_cases (a * 2 ^ t) b Hb) as HM. cbv zeta in HM.
  pose proof (Z.div_mod (a * 2 ^ t) b ltac:(lia)) as Hqr.
  pose proof (Z.mod_pos_bound (a * 2 ^ t) b Hb) as Hr.
  set (M := nearest_even (a * 2 ^ t) b) in *.
  set (q := (a * 2 ^ t) / b) in *. set (r := (a * 2 ^ t) mod b) in *.
  destruct (Z.eq_dec t 0) as [->|Ht0].
  - change (2 ^ 0) with 1 in *.
    assert (b = 1) by nia. subst b.
    assert (r = 0) by lia. assert (q = a) by lia.
    assert (Hn : nearest_up M 1 = k) by (apply nearest_up_unique; lia).
    rewrite Hn. lia.
  - set (h := 2 ^ (t - 1)).
    assert (Hh : 0 < h) by (apply Z.pow_pos_nonneg; lia).
    assert (Hp : 2 ^ t = 2 * h).
    { unfold h. rewrite <- Z.pow_succ_r by lia. f_equal. lia. }
    rewrite Hp in *.
    assert (Hlo : 2 * h * k <= q + h).
    { assert (b * (2 * h * k) < b * (q + 1 + h)) by nia.
      assert (2 * h * k < q + 1 + h) by (apply (Z.mul_lt_mono_pos_l b); lia).
      lia. }
    assert (Hq : q + 1 <= (2 * k + 1) * h).
    { assert (b * q < b * ((2 * k + 1) * h)) by nia.
      assert (q < (2 * k + 1) * h) by (apply (Z.mul_lt_mono_pos_l b); lia).
      lia. }
    pose proof (nearest_up_bounds M (2 * h) ltac:(lia)) as Hn.
    set (n := nearest_up M (2 * h)) in *.
    assert (HMq : q <= M <= q + 1) by lia.
    split.
    + assert (2 * h * k < 2 * h * (n + 1)) by nia.
      assert (k < n + 1) by (apply (Z.mul_lt_mono_pos_l (2 * h)); lia). lia.
    + assert (2 * h * n < 2 * h * (k + 2)) by nia.
      assert (n < k + 2) by (apply (Z.mul_lt_mono_pos_l (2 * h)); lia). lia.
Qed.

Lemma norm_exp_unique x b t t' :
  0 < x -> 0 <= t -> 0 <= t' ->
  2 ^ 52 * b <= x * 2 ^ t < 2 ^ 53 * b ->
  2 ^ 52 * b <= x * 2 ^ t' < 2 ^ 53 * b -> t = t'.
Proof.
  intros Hx Ht Ht' H1 H2.
  assert (Hstep : forall u v, 0 <= u -> u < v ->
            2 ^ 52 * b <= x * 2 ^ u -> x * 2 ^ v < 2 ^ 53 * b -> False).
  { intros u v Hu Huv Hlo Hhi.
    assert (2 * 2 ^ u <= 2 ^ v).
    { rewrite <- Z.pow_succ_r by lia. apply Z.pow_le_mono_r; lia. }
    assert (x * (2 * 2 ^ u) <= x * 2 ^ v)
      by (apply Z.mul_le_mono_nonneg_l; lia).
    lia. }
  destruct (Z.lt_trichotomy t t') as [Hlt|[Heq|Hgt]];
    [exfalso | assumption | exfalso].
  - apply (Hstep t t'); lia.
  - apply (Hstep t' t); lia.
Qed.

(** [roundDiv] of [x] and of [- x] have the same magnitude, which is the
    exact rounded quotient or one more. *)
Lemma roundDiv_magnitude `{GoArch} x b :
  0 < x < 2 ^ 53 -> 0 < b < 2 ^ 53 ->
  exists n,
    nearest_up x b <= n <= nearest_up x b + 1
    /\ roundDiv x b = n /\ roundDiv (- x) b = - n.
Proof.
  intros Hx Hb.
  destruct (roundDiv_float false x b Hx Hb) as (t & Ht & Hn & Hr).
  destruct (roundDiv_float true x b Hx Hb) as (t' & Ht' & Hn' & Hr').
  assert (t' = t) by (apply (norm_exp_unique x b); lia). subst t'.
  exists (nearest_up (nearest_even (x * 2 ^ t) b) (2 ^ t)).
  split; [apply double_rounding_bound; lia|].
  split; [exact Hr|exact Hr'].
Qed.

(** X14: on operands that are exact in float64 ([|a| < 2^53],
    [0 < b < 2^53]) [roundDiv] is odd in the dividend, has the sign of the
    dividend or is zero, and is the exact rounded quotient or one unit
    further from zero. *)
Theorem roundDiv_within_one `{GoArch} a b :
  - 2 ^ 53 < a < 2 ^ 53 -> 0 < b < 2 ^ 53 ->
  roundDiv (- a) b = - roundDiv a b
  /\ 0 <= roundDiv a b * a
  /\ Z.abs (round_half_away a b) <= Z.abs (roundDiv a b)
     <= Z.abs (round_half_away a b) + 1.
Proof.
  intros Ha Hb.
  destruct (Z.lt_trichotomy a 0) as [Hneg|[->|Hp]].
  - destruct (roundDiv_magnitude (- a) b ltac:(lia) Hb) as (n & Hn & Hr & Hr').
    pose proof (nearest_up_nonneg (- a) b ltac:(lia) ltac:(lia)).
    replace (- - a) with a in Hr' by lia.
    rewrite round_half_away_neg_eq by lia. rewrite Hr, Hr'.
    split; [lia|]. split; [nia|lia].
  - change (- 0) with 0. rewrite roundDiv_0_l by assumption.
    unfold round_half_away. simpl. lia.
  - destruct (roundDiv_magnitude a b ltac:(lia) Hb) as (n & Hn & Hr & Hr').
    pose proof (nearest_up_nonneg a b ltac:(lia) ltac:(lia)).
    rewrite round_half_away_nonneg_eq by lia. rewrite Hr, Hr'.
    split; [lia|]. split; [nia|lia].
Qed.

Lemma roundDiv_within_one_witness :
  @roundDiv amd64 (- (3 * 2 ^ 51 + 1)) (2 ^ 52 + 1)
  = - @roundDiv amd64 (3 * 2 ^ 51 + 1) (2 ^ 52 + 1).
Proof.
  apply (@roundDiv_within_one amd64 (3 * 2 ^ 51 + 1) (2 ^ 52 + 1)); by_eval.
Defined.

(** X15: for [0 < period <= 2^52] and [0 < rate < 2^53] the emission
    interval is never negative, and it is zero exactly when [rate] is more
    than twice [period]: such options pass the validation of [Generate] and
    [Compute]. *)
Theorem zero_interval_iff `{GoArch} period rate :
  0 < period <= 2 ^ 52 -> 0 < rate < 2 ^ 53 ->
  0 <= roundDiv period rate
  /\ (roundDiv period rate = 0 <-> 2 * period < rate)
  /\ forall burst, 0 < burst ->
       valid 0 {| Burst := burst; Rate := rate; Period := period |}.
Proof.
  intros Hp Hr. rewrite roundDiv_exact by lia. split; [|split].
  - apply round_half_away_nonneg; lia.
  - rewrite round_half_away_0_iff by lia. lia.
  - intros burst Hb. unfold valid. cbn [Burst Rate Period]. lia.
Qed.

Lemma zero_interval_iff_witness :
  @roundDiv amd64 1 10 = 0 <-> 2 * 1 < 10.
Proof.
  refine (proj1 (proj2 (@zero_interval_iff amd64 1 10 _ _))); by_eval.
Defined.

(** X16: when the emission interval rounds to zero nothing is ever charged:
    [GenerateRaw] returns [now] whatever the count, and [ComputeRaw] returns
    the clamped TAT [max tat now] whatever the cost and the decision. *)
Theorem zero_interval_charges_nothing `{GoArch} tat now count burst rate period
    cost :
  roundDiv period rate = 0 -> Int64.in_range tat -> Int64.in_range now ->
  GenerateRaw now count burst rate period = now
  /\ newTAT (ComputeRaw tat now burst rate period cost) = Z.max tat now.
Proof.
  intros Hei Ht Hn. split.
  - rewrite GenerateRaw_wrap, Hei, Z.mul_0_l, Z.add_0_r.
    now apply Int64Facts.wrap_small.
  - unfold ComputeRaw. cbv zeta. rewrite Hei, !gtb_max.
    unfold Int64.mul. rewrite Z.mul_0_l. change (Int64.wrap 0) with 0.
    unfold Int64.add. rewrite Z.add_0_r.
    rewrite (Int64Facts.wrap_small (Z.max tat now))
      by (unfold Int64.in_range in *; lia).
    destruct (_ <? 0); [reflexivity|]. destruct (_ && _); reflexivity.
Qed.

Lemma zero_interval_charges_nothing_witness :
  newTAT (@ComputeRaw amd64 0 5 1 10 1 1) = 5.
Proof.
  apply (@zero_interval_charges_nothing amd64 0 5 0 1 10 1 1); by_eval.
Defined.

(** X17: [roundDiv] by zero does not fail: the float quotient of a non-zero
    dividend below [2^53] in magnitude is the infinity of its sign, that of
    zero is a NaN, and the result is whatever the implementation converts
    them to. *)
Theorem roundDiv_by_zero `{GoArch} (s : bool) x :
  0 < x < 2 ^ 53 ->
  roundDiv (if s then - x else x) 0
  = Int64.wrap (invalid_conv (S754_infinity s))
  /\ roundDiv 0 0 = Int64.wrap (invalid_conv S754_nan).
Proof.
  intros Hx. split; [|reflexivity].
  destruct (of_int64_exact s x Hx) as (m & e & Hf & _).
  unfold signed in Hf. unfold roundDiv. rewrite Hf.
  change (Float64.of_int64 0) with (S754_zero false).
  unfold Float64.div, SFdiv. rewrite xorb_false_r. reflexivity.
Qed.

Lemma roundDiv_by_zero_witness :
  @roundDiv amd64 (- 7) 0 = Int64.min_int /\ @roundDiv arm64 7 0 = Int64.max_int.
Proof.
  split.
  - transitivity (Int64.wrap (@invalid_conv amd64 (S754_infinity true)));
      [|vm_compute; reflexivity].
    apply (@roundDiv_by_zero amd64 true 7). by_eval.
  - transitivity (Int64.wrap (@invalid_conv arm64 (S754_infinity false)));
      [|vm_compute; reflexivity].
    apply (@roundDiv_by_zero arm64 false 7). by_eval.
Defined.
